(** * Lock manager of the deterministic two-phase-locking engine

    A shallow embedding of [src/txn/lock_manager.cc]: the two lock managers
    [LockManagerA] (exclusive locks only) and [LockManagerB] (shared and
    exclusive locks), followed by the properties of the specification that
    are settled against them.

    Modelling choices, all read off the source:
    - [Txn*] is used for its identity only (map key, queue element,
      [==] comparison); a transaction is modelled by its address, a
      [positive].
    - [Key] is a string.
    - [lock_table_] is [unordered_map<Key, deque<LockRequest>*>]; every
      deque is reachable from one key only, so the table is a finite map
      from keys to lists of requests, front of the deque first.
    - [txn_waits_] is [unordered_map<Txn*, int>]; the counter is a [Z].
      Signed overflow of [int] is undefined in C++ and needs 2^31 pending
      requests of one transaction; the model does not bound the counter.
    - [ready_txns_] points to the scheduler's deque; the lock manager only
      ever calls [push_back] on it, so it is a list that grows at its end.
    - the methods mutate the members; here they take the manager's state
      and return the new one (with the method's result, if any).
    - [LockManagerB::Release] dereferences the pointer that
      [lock_table_[key]] returns; for an absent key that pointer is the
      null pointer just inserted, and the call faults: [Release] of
      variant B returns an [option], [None] being the fault. *)

From stdpp Require Import gmap strings list fin_maps.
From Stdlib Require Import ZArith.

Local Open Scope Z_scope.

Abbreviation Key := string (only parsing).
Abbreviation Txn := positive (only parsing).

Inductive LockMode : Set := UNLOCKED | SHARED | EXCLUSIVE.

#[global] Instance LockMode_eq_dec : EqDecision LockMode.
Proof. solve_decision. Defined.

Record LockRequest : Set := mkLockRequest { mode_ : LockMode; txn_ : Txn }.

#[global] Instance LockRequest_eq_dec : EqDecision LockRequest.
Proof. solve_decision. Defined.

Record LockManager : Type := mkLockManager {
  lock_table_ : gmap Key (list LockRequest);
  txn_waits_ : gmap Txn Z;
  ready_txns_ : list Txn
}.

(** The constructor: empty maps, and the ready queue it is handed (empty in
    every scenario of the specification). *)
Definition new_manager : LockManager :=
  {| lock_table_ := ∅; txn_waits_ := ∅; ready_txns_ := [] |}.

(** [txn_waits_[txn]++]: [operator[]] creates the entry with value 0 when
    it is absent, then the post-increment adds one. *)
Definition waits_incr (txn : Txn) (w : gmap Txn Z) : gmap Txn Z :=
  <[txn := default 0 (w !! txn) + 1]> w.

(** The loop shared by both [Release] methods:
    [for (it = begin; it != end; it++) if (it->txn_ == txn) { erase(it); break; }]
    removes the first request of [txn], if there is one. *)
Fixpoint erase_first (txn : Txn) (q : list LockRequest) : list LockRequest :=
  match q with
  | [] => []
  | r :: q' => if decide (txn_ r = txn) then q' else r :: erase_first txn q'
  end.

(** ** Variant A: exclusive locks only *)
Module LockManagerA.

Definition WriteLock (lm : LockManager) (txn : Txn) (key : Key)
  : LockManager * bool :=
  match lock_table_ lm !! key with
  | None =>
      ({| lock_table_ := <[key := [mkLockRequest EXCLUSIVE txn]]> (lock_table_ lm);
          txn_waits_ := <[txn := 0]> (txn_waits_ lm);
          ready_txns_ := ready_txns_ lm |}, true)
  | Some lock_deq =>
      let lock_deq' := lock_deq ++ [mkLockRequest EXCLUSIVE txn] in
      if decide (length lock_deq' = 1%nat) then
        ({| lock_table_ := <[key := lock_deq']> (lock_table_ lm);
            txn_waits_ := <[txn := 0]> (txn_waits_ lm);
            ready_txns_ := ready_txns_ lm |}, true)
      else
        ({| lock_table_ := <[key := lock_deq']> (lock_table_ lm);
            txn_waits_ := waits_incr txn (txn_waits_ lm);
            ready_txns_ := ready_txns_ lm |}, false)
  end.

Definition ReadLock (lm : LockManager) (txn : Txn) (key : Key)
  : LockManager * bool :=
  WriteLock lm txn key.

(** The [while (lock_deq->size() > 0)] loop of [Release], run on the
    deque left after the holder was popped: zombies (transactions with no
    entry in [txn_waits_]) are popped; the first transaction that has an
    entry has it decremented, is pushed on the ready queue when the
    counter is then 0, and stops the loop. *)
Fixpoint grant_next (w : gmap Txn Z) (ready : list Txn) (q : list LockRequest)
  : list LockRequest * gmap Txn Z * list Txn :=
  match q with
  | [] => ([], w, ready)
  | r :: q' =>
      match w !! txn_ r with
      | None => grant_next w ready q'
      | Some c =>
          (r :: q', <[txn_ r := c - 1]> w,
           if decide (c - 1 = 0) then ready ++ [txn_ r] else ready)
      end
  end.

Definition Release (lm : LockManager) (txn : Txn) (key : Key) : LockManager :=
  match lock_table_ lm !! key with
  | None => lm
  | Some [] => lm
  | Some (front :: rest) =>
      if decide (txn_ front ≠ txn) then
        {| lock_table_ := <[key := erase_first txn (front :: rest)]> (lock_table_ lm);
           txn_waits_ := delete txn (txn_waits_ lm);
           ready_txns_ := ready_txns_ lm |}
      else
        match rest with
        | [] =>
            {| lock_table_ := delete key (lock_table_ lm);
               txn_waits_ := txn_waits_ lm;
               ready_txns_ := ready_txns_ lm |}
        | _ :: _ =>
            let '(q', w', ready') :=
              grant_next (txn_waits_ lm) (ready_txns_ lm) rest in
            {| lock_table_ := <[key := q']> (lock_table_ lm);
               txn_waits_ := w';
               ready_txns_ := ready' |}
        end
  end.

(** [Status] clears [owners] first; the model returns the mode together
    with the owners written. *)
Definition Status (lm : LockManager) (key : Key) : LockMode * list Txn :=
  match lock_table_ lm !! key with
  | None => (UNLOCKED, [])
  | Some [] => (UNLOCKED, [])
  | Some (lock :: _) => (EXCLUSIVE, [txn_ lock])
  end.

End LockManagerA.

(** ** Variant B: shared and exclusive locks *)
Module LockManagerB.

Definition WriteLock (lm : LockManager) (txn : Txn) (key : Key)
  : LockManager * bool :=
  match lock_table_ lm !! key with
  | None =>
      ({| lock_table_ := <[key := [mkLockRequest EXCLUSIVE txn]]> (lock_table_ lm);
          txn_waits_ := <[txn := 0]> (txn_waits_ lm);
          ready_txns_ := ready_txns_ lm |}, true)
  | Some lock_deq =>
      let lock_deq' := lock_deq ++ [mkLockRequest EXCLUSIVE txn] in
      if decide (length lock_deq' = 1%nat) then
        ({| lock_table_ := <[key := lock_deq']> (lock_table_ lm);
            txn_waits_ := <[txn := 0]> (txn_waits_ lm);
            ready_txns_ := ready_txns_ lm |}, true)
      else
        ({| lock_table_ := <[key := lock_deq']> (lock_table_ lm);
            txn_waits_ := waits_incr txn (txn_waits_ lm);
            ready_txns_ := ready_txns_ lm |}, false)
  end.

(** The scan of [ReadLock]: is there a request with [mode_ == EXCLUSIVE]? *)
Definition has_exclusive (q : list LockRequest) : bool :=
  existsb (λ r, bool_decide (mode_ r = EXCLUSIVE)) q.

Definition ReadLock (lm : LockManager) (txn : Txn) (key : Key)
  : LockManager * bool :=
  match lock_table_ lm !! key with
  | None =>
      ({| lock_table_ := <[key := [mkLockRequest SHARED txn]]> (lock_table_ lm);
          txn_waits_ := <[txn := 0]> (txn_waits_ lm);
          ready_txns_ := ready_txns_ lm |}, true)
  | Some lock_deq =>
      let lock_deq' := lock_deq ++ [mkLockRequest SHARED txn] in
      if decide (length lock_deq' = 1%nat) then
        ({| lock_table_ := <[key := lock_deq']> (lock_table_ lm);
            txn_waits_ := <[txn := 0]> (txn_waits_ lm);
            ready_txns_ := ready_txns_ lm |}, true)
      else if has_exclusive lock_deq' then
        ({| lock_table_ := <[key := lock_deq']> (lock_table_ lm);
            txn_waits_ := waits_incr txn (txn_waits_ lm);
            ready_txns_ := ready_txns_ lm |}, false)
      else
        ({| lock_table_ := <[key := lock_deq']> (lock_table_ lm);
            txn_waits_ := <[txn := 0]> (txn_waits_ lm);
            ready_txns_ := ready_txns_ lm |}, true)
  end.

(** The loop of [Status]:
    [for (; it != end && it->mode_ != EXCLUSIVE; it++) owners->push_back(it->txn_)]. *)
Fixpoint shared_run (q : list LockRequest) : list Txn :=
  match q with
  | [] => []
  | r :: q' =>
      if decide (mode_ r ≠ EXCLUSIVE) then txn_ r :: shared_run q' else []
  end.

Definition Status (lm : LockManager) (key : Key) : LockMode * list Txn :=
  match lock_table_ lm !! key with
  | None => (UNLOCKED, [])
  | Some [] => (UNLOCKED, [])
  | Some (it :: rest) =>
      if decide (mode_ it = EXCLUSIVE) then (EXCLUSIVE, [txn_ it])
      else (SHARED, shared_run (it :: rest))
  end.

(** One iteration of [for (auto owner : owners)] in [Release]: an owner
    found in [txn_waits_] is decremented; when the counter is then 0 the
    owner is pushed on the ready queue and its entry erased. *)
Definition notify (st : gmap Txn Z * list Txn) (owner : Txn)
  : gmap Txn Z * list Txn :=
  match st.1 !! owner with
  | None => st
  | Some c =>
      if decide (c - 1 = 0) then (delete owner st.1, st.2 ++ [owner])
      else (<[owner := c - 1]> st.1, st.2)
  end.

Definition Release (lm : LockManager) (txn : Txn) (key : Key)
  : option LockManager :=
  match lock_table_ lm !! key with
  | None => None
  | Some lock_deq =>
      let lm1 :=
        {| lock_table_ := <[key := erase_first txn lock_deq]> (lock_table_ lm);
           txn_waits_ := txn_waits_ lm;
           ready_txns_ := ready_txns_ lm |} in
      let owners := (Status lm1 key).2 in
      let '(w', ready') :=
        foldl notify (txn_waits_ lm1, ready_txns_ lm1) owners in
      Some {| lock_table_ := lock_table_ lm1;
              txn_waits_ := w';
              ready_txns_ := ready' |}
  end.

End LockManagerB.

(** ** Predicates of the specification *)

(** The invariant of the specification's lifecycle paragraph: no key is
    mapped to an empty queue. *)
Definition no_empty_queue (lm : LockManager) : Prop :=
  map_Forall (λ _ q, q ≠ []) (lock_table_ lm).

#[global] Instance no_empty_queue_dec lm : Decision (no_empty_queue lm).
Proof. unfold no_empty_queue. apply _. Defined.

(** Every wait counter is nonnegative. *)
Definition waits_nonneg (lm : LockManager) : Prop :=
  map_Forall (λ _ c, 0 ≤ c) (txn_waits_ lm).

#[global] Instance waits_nonneg_dec lm : Decision (waits_nonneg lm).
Proof. unfold waits_nonneg. apply _. Defined.

(** A zombie, for the counter map [w]: a transaction without entry. *)
Definition zombie (w : gmap Txn Z) (r : LockRequest) : Prop :=
  w !! txn_ r = None.

(** The counter of [t] reaches zero between two states: it is 0 after and
    was not 0 before. *)
Definition reaches_zero (lm lm' : LockManager) (t : Txn) : Prop :=
  txn_waits_ lm !! t ≠ Some 0 ∧ txn_waits_ lm' !! t = Some 0.




(** The holders that [Status] reports, against the queue [q] of the key:
    they are the transactions of the first requests of [q], in order, and
    an EXCLUSIVE request among those is the first request of [q] and the
    only holder. *)
Definition writers_hold_alone (owners : list Txn) (q : list LockRequest) : Prop :=
  owners = txn_ <$> take (length owners) q ∧
  ∀ i r, q !! i = Some r → mode_ r = EXCLUSIVE → (i < length owners)%nat →
         i = 0%nat ∧ length owners = 1%nat.

(** The step from [lm] to [lm'] leaves key [k] alone: same queue (or same
    absence of one), hence the same answer from [Status] of either
    variant. *)
Definition key_untouched (k : Key) (lm lm' : LockManager) : Prop :=
  lock_table_ lm' !! k = lock_table_ lm !! k ∧
  LockManagerA.Status lm' k = LockManagerA.Status lm k ∧
  LockManagerB.Status lm' k = LockManagerB.Status lm k.

(** How many times [t] is among the owners that [Status] wrote. *)
Definition occurrences (t : Txn) (owners : list Txn) : Z :=
  Z.of_nat (length (filter (λ o, o = t) owners)).

(** Variant A creates EXCLUSIVE requests only; the table holds no other. *)
Definition all_exclusive (lm : LockManager) : Prop :=
  map_Forall (λ _ q, Forall (λ r, mode_ r = EXCLUSIVE) q) (lock_table_ lm).

#[global] Instance all_exclusive_dec lm : Decision (all_exclusive lm).
Proof. unfold all_exclusive. apply _. Defined.

(** Between two tables: no key is new, and the queue of every key is what
    is left of its old queue after removing some requests, the others in
    their old order. *)
Definition queues_shrink (lm lm' : LockManager) : Prop :=
  ∀ k q', lock_table_ lm' !! k = Some q' →
          ∃ q, lock_table_ lm !! k = Some q ∧ q' `sublist_of` q.

(** ** Runs of calls *)













(** ** Transactions and states of the scenarios *)

Definition T1 : Txn := 1%positive.
Definition T2 : Txn := 2%positive.
Definition T3 : Txn := 3%positive.
Definition T4 : Txn := 4%positive.

(** T2 waits behind T1 on "a" and behind T3 on "b"; T4 waits behind T2 on
    "b". *)
Definition two_waits : LockManager :=
  let lm1 := (LockManagerA.WriteLock new_manager T1 "a").1 in
  let lm2 := (LockManagerA.WriteLock lm1 T2 "a").1 in
  let lm3 := (LockManagerA.WriteLock lm2 T3 "b").1 in
  let lm4 := (LockManagerA.WriteLock lm3 T2 "b").1 in
  (LockManagerA.WriteLock lm4 T4 "b").1.

(** T1 and T2 read "a" and T3 waits to write it. *)
Definition two_readers_one_writer : LockManager :=
  let lm1 := (LockManagerB.ReadLock new_manager T1 "a").1 in
  let lm2 := (LockManagerB.ReadLock lm1 T2 "a").1 in
  (LockManagerB.WriteLock lm2 T3 "a").1.

(** ** Basic facts about the shared helpers *)

Lemma erase_first_front txn r q :
  txn_ r = txn → erase_first txn (r :: q) = q.
Proof. intros H. simpl. by rewrite decide_True. Qed.

Lemma erase_first_skip txn r q :
  txn_ r ≠ txn → erase_first txn (r :: q) = r :: erase_first txn q.
Proof. intros H. simpl. by rewrite decide_False. Qed.

Lemma erase_first_absent txn q :
  txn ∉ (txn_ <$> q) → erase_first txn q = q.
Proof.
  induction q as [|r q IH]; [done|].
  rewrite fmap_cons, not_elem_of_cons. intros [Hne Hq].
  rewrite erase_first_skip by done. by rewrite IH.
Qed.

Lemma erase_first_present txn q :
  txn ∈ (txn_ <$> q) →
  ∃ pre r post, q = pre ++ r :: post ∧ txn_ r = txn ∧
                (txn ∉ (txn_ <$> pre)) ∧ erase_first txn q = pre ++ post.
Proof.
  induction q as [|r q IH]; [by intros ?%elem_of_nil|].
  intros Hin. destruct (decide (txn_ r = txn)) as [Heq|Hne].
  - exists [], r, q. rewrite erase_first_front by done.
    repeat split; [done|]. apply not_elem_of_nil.
  - rewrite fmap_cons, elem_of_cons in Hin.
    destruct Hin as [?|Hin]; [congruence|].
    destruct (IH Hin) as (pre & r' & post & -> & Hr' & Hpre & Hq).
    exists (r :: pre), r', post. rewrite erase_first_skip by done.
    rewrite Hq. repeat split; [done|].
    rewrite fmap_cons, not_elem_of_cons. split; [congruence|done].
Qed.

(** ** The concrete scenarios *)

(** C5. Variant A, scenario 1, from the empty lock manager:
    [WriteLock(T1,"a")] returns true, [WriteLock(T2,"a")] returns false and
    leaves the ready queue empty, [Release(T1,"a")] appends T2 to the ready
    queue (which is then exactly [T2]), and [Status("a")] then returns
    EXCLUSIVE with owners exactly [T2]. *)
Theorem scenario_exclusive_handover :
  let r1 := LockManagerA.WriteLock new_manager T1 "a" in
  let r2 := LockManagerA.WriteLock r1.1 T2 "a" in
  let lm3 := LockManagerA.Release r2.1 T1 "a" in
  r1.2 = true ∧ r2.2 = false ∧
  ready_txns_ r2.1 = [] ∧ ready_txns_ lm3 = ready_txns_ r2.1 ++ [T2] ∧
  LockManagerA.Status lm3 "a" = (EXCLUSIVE, [T2]).
Proof. vm_compute. by repeat split. Qed.

(** C4. Variant B, scenario 2, from the empty lock manager:
    [ReadLock(T1,"a")] and [ReadLock(T2,"a")] return true,
    [WriteLock(T3,"a")] returns false; after [Release(T1,"a")],
    [Status("a")] is SHARED with owners exactly [T2] and the ready queue is
    still empty (T3 not appended); after [Release(T2,"a")] the ready queue
    is exactly [T3] and [Status("a")] is EXCLUSIVE with owners exactly
    [T3]. Neither [Release] faults. *)
Theorem scenario_readers_then_writer :
  let r1 := LockManagerB.ReadLock new_manager T1 "a" in
  let r2 := LockManagerB.ReadLock r1.1 T2 "a" in
  let r3 := LockManagerB.WriteLock r2.1 T3 "a" in
  r1.2 = true ∧ r2.2 = true ∧ r3.2 = false ∧ ready_txns_ r3.1 = [] ∧
  ∃ lm4 lm5,
    LockManagerB.Release r3.1 T1 "a" = Some lm4 ∧
    LockManagerB.Status lm4 "a" = (SHARED, [T2]) ∧
    (T3 ∉ ready_txns_ lm4) ∧ ready_txns_ lm4 = [] ∧
    LockManagerB.Release lm4 T2 "a" = Some lm5 ∧
    ready_txns_ lm5 = ready_txns_ lm4 ++ [T3] ∧
    LockManagerB.Status lm5 "a" = (EXCLUSIVE, [T3]).
Proof.
  cbv zeta. repeat split.
  destruct (LockManagerB.Release
              (LockManagerB.WriteLock
                 (LockManagerB.ReadLock
                    (LockManagerB.ReadLock new_manager T1 "a").1 T2 "a").1
                 T3 "a").1 T1 "a") as [lm4|] eqn:E4; [|by vm_compute in E4].
  destruct (LockManagerB.Release lm4 T2 "a") as [lm5|] eqn:E5.
  - exists lm4, lm5.
    vm_compute in E4. injection E4 as <-.
    vm_compute in E5. injection E5 as <-.
    repeat split; try reflexivity. vm_compute. apply not_elem_of_nil.
  - vm_compute in E4. injection E4 as <-. by vm_compute in E5.
Qed.

(** ** [Release] on a key without table entry *)

Lemma ReleaseA_absent_key lm txn key :
  lock_table_ lm !! key = None → LockManagerA.Release lm txn key = lm.
Proof. intros H. unfold LockManagerA.Release. by rewrite H. Qed.

Lemma ReleaseB_absent_key lm txn key :
  lock_table_ lm !! key = None → LockManagerB.Release lm txn key = None.
Proof. intros H. unfold LockManagerB.Release. by rewrite H. Qed.

(** C3. [Release(T1,"a")] on the empty lock manager: variant A returns the
    manager unchanged; variant B dereferences the null pointer that
    [lock_table_[key]] has just inserted and faults, where the claim asks
    for a no-op. *)
Theorem release_unknown_key_faults_in_B :
  LockManagerA.Release new_manager T1 "a" = new_manager ∧
  LockManagerB.Release new_manager T1 "a" = None.
Proof. split; reflexivity. Qed.

(** ** Wait counters below zero *)

(** C1. A counter that is 0 is decremented to -1 by a later [Release].
    Variant B: T1 and T2 both read-lock "a" (both granted, counters 0);
    releasing T1 recomputes the holders [T2] and decrements T2.
    Variant A: T2 waits for "a" behind T1 (counter 1), is then granted "b"
    at once (counter overwritten with 0); releasing T1 on "a" decrements
    T2. In both runs every counter is nonnegative before the [Release] and
    T2's is -1 after it. *)
Theorem release_decrements_zero_counter :
  (let r1 := LockManagerB.ReadLock new_manager T1 "a" in
   let r2 := LockManagerB.ReadLock r1.1 T2 "a" in
   r1.2 = true ∧ r2.2 = true ∧
   waits_nonneg r2.1 ∧ txn_waits_ r2.1 !! T2 = Some 0 ∧
   ∃ lm3, LockManagerB.Release r2.1 T1 "a" = Some lm3 ∧
          txn_waits_ lm3 !! T2 = Some (-1) ∧ ¬ waits_nonneg lm3) ∧
  (let r1 := LockManagerA.WriteLock new_manager T1 "a" in
   let r2 := LockManagerA.WriteLock r1.1 T2 "a" in
   let r3 := LockManagerA.WriteLock r2.1 T2 "b" in
   let lm4 := LockManagerA.Release r3.1 T1 "a" in
   r3.2 = true ∧
   waits_nonneg r3.1 ∧ txn_waits_ r3.1 !! T2 = Some 0 ∧
   txn_waits_ lm4 !! T2 = Some (-1) ∧ ¬ waits_nonneg lm4).
Proof.
  split; cbv zeta.
  - split; [reflexivity|]. split; [reflexivity|].
    split; [apply (bool_decide_unpack _); by vm_compute|].
    split; [reflexivity|].
    eexists. split; [reflexivity|]. split; [reflexivity|].
    intros H. specialize (H T2 (-1) eq_refl). simpl in H. lia.
  - split; [reflexivity|].
    split; [apply (bool_decide_unpack _); by vm_compute|].
    split; [reflexivity|]. split; [reflexivity|].
    intros H. specialize (H T2 (-1) eq_refl). simpl in H. lia.
Qed.

(** What the counter at -1 costs, variant B: T2 then asks for "b" behind
    T3 and is told to wait (its counter goes from -1 to 0); when T3
    releases "b", T2 is the holder of "b", its counter goes from 0 to -1,
    and T2 is never appended to the ready queue. *)
Example negative_counter_loses_wakeup :
  let lm1 := (LockManagerB.ReadLock new_manager T1 "a").1 in
  let lm2 := (LockManagerB.ReadLock lm1 T2 "a").1 in
  ∃ lm3 lm6,
    LockManagerB.Release lm2 T1 "a" = Some lm3 ∧
    let lm4 := (LockManagerB.WriteLock lm3 T3 "b").1 in
    let r5 := LockManagerB.WriteLock lm4 T2 "b" in
    r5.2 = false ∧ txn_waits_ r5.1 !! T2 = Some 0 ∧
    LockManagerB.Release r5.1 T3 "b" = Some lm6 ∧
    LockManagerB.Status lm6 "b" = (EXCLUSIVE, [T2]) ∧
    ready_txns_ lm6 = [] ∧ txn_waits_ lm6 !! T2 = Some (-1).
Proof. cbv zeta. do 2 eexists. split; [reflexivity|]. by vm_compute. Qed.

(** ** Immediate grants *)

Lemma has_exclusive_true q :
  LockManagerB.has_exclusive q = true ↔ ∃ r, r ∈ q ∧ mode_ r = EXCLUSIVE.
Proof.
  unfold LockManagerB.has_exclusive. rewrite existsb_exists. split.
  - intros (r & Hin & Hr). exists r. split; [by apply list_elem_of_In|].
    by apply bool_decide_eq_true in Hr.
  - intros (r & Hin & Hr). exists r. split; [by apply list_elem_of_In|].
    by apply bool_decide_eq_true.
Qed.

Lemma has_exclusive_false q :
  LockManagerB.has_exclusive q = false ↔ ∀ r, r ∈ q → mode_ r ≠ EXCLUSIVE.
Proof.
  rewrite <- not_true_iff_false, has_exclusive_true. split.
  - intros H r Hin Hr. apply H. eauto.
  - intros H (r & Hin & Hr). by apply (H r).
Qed.

Lemma length_snoc_one {A} (q : list A) (x : A) :
  length (q ++ [x]) = 1%nat ↔ q = [].
Proof.
  rewrite length_app. simpl. split.
  - intros H. apply length_zero_iff_nil. lia.
  - by intros ->.
Qed.

(** C10. Whenever [WriteLock] or [ReadLock] of either variant grants at
    once (returns true), the new counter map is the old one with the
    transaction's entry assigned 0, whatever that entry was before: a
    count of requests still pending on other keys is overwritten. *)
Theorem immediate_grant_resets_counter lm txn key lm' :
  LockManagerA.WriteLock lm txn key = (lm', true) ∨
  LockManagerA.ReadLock lm txn key = (lm', true) ∨
  LockManagerB.WriteLock lm txn key = (lm', true) ∨
  LockManagerB.ReadLock lm txn key = (lm', true) →
  txn_waits_ lm' = <[txn := 0]> (txn_waits_ lm) ∧
  txn_waits_ lm' !! txn = Some 0.
Proof.
  intros H.
  assert (txn_waits_ lm' = <[txn := 0]> (txn_waits_ lm)) as Hw.
  { unfold LockManagerA.ReadLock in H.
    destruct H as [H|[H|[H|H]]];
      unfold LockManagerA.WriteLock, LockManagerB.WriteLock,
        LockManagerB.ReadLock in H;
      destruct (lock_table_ lm !! key) as [q|]; cbv zeta in H;
      repeat case_decide;
      try destruct (LockManagerB.has_exclusive _);
      by inversion H. }
  split; [done|]. rewrite Hw. apply lookup_insert_eq.
Qed.

(** T2 waits for "a" behind T1 (counter 1); its request for the free key
    "b" is granted at once and the counter is overwritten with 0. *)
Lemma immediate_grant_resets_counter_witness :
  let lm := (LockManagerA.WriteLock
               (LockManagerA.WriteLock new_manager T1 "a").1 T2 "a").1 in
  let lm' := (LockManagerA.WriteLock lm T2 "b").1 in
  txn_waits_ lm !! T2 = Some 1 ∧
  txn_waits_ lm' = <[T2 := 0]> (txn_waits_ lm) ∧
  txn_waits_ lm' !! T2 = Some 0.
Proof.
  intros lm lm'. split; [reflexivity|].
  apply (immediate_grant_resets_counter lm T2 "b" lm').
  left. reflexivity.
Defined.

(** C7. Variant B, [ReadLock(txn,key)]: the SHARED request is appended to
    the key's queue (a fresh one if the key had none) and the ready queue
    is untouched; the call returns true exactly when the queue, after the
    append, holds no EXCLUSIVE request, and then the counter of [txn] is
    set to 0; it returns false when some EXCLUSIVE request is present, and
    then the counter of [txn] is incremented (from 0 if it had none). *)
Theorem ReadLockB_grants_iff_no_exclusive lm txn key :
  let q' := default [] (lock_table_ lm !! key) ++ [mkLockRequest SHARED txn] in
  let res := LockManagerB.ReadLock lm txn key in
  lock_table_ res.1 = <[key := q']> (lock_table_ lm) ∧
  ready_txns_ res.1 = ready_txns_ lm ∧
  (res.2 = true ↔ ∀ r, r ∈ q' → mode_ r ≠ EXCLUSIVE) ∧
  (res.2 = true → txn_waits_ res.1 = <[txn := 0]> (txn_waits_ lm)) ∧
  (res.2 = false ↔ ∃ r, r ∈ q' ∧ mode_ r = EXCLUSIVE) ∧
  (res.2 = false →
     txn_waits_ res.1
       = <[txn := default 0 (txn_waits_ lm !! txn) + 1]> (txn_waits_ lm)).
Proof.
  cbv zeta. unfold LockManagerB.ReadLock.
  destruct (lock_table_ lm !! key) as [q|] eqn:Hq; simpl.
  - case_decide as Hlen.
    + apply length_snoc_one in Hlen as ->. simpl.
      repeat split; try done.
      * intros _ r ->%list_elem_of_singleton. done.
      * intros (r & ->%list_elem_of_singleton & Hr). done.
    + destruct (LockManagerB.has_exclusive _) eqn:Hex; simpl.
      * pose proof (proj1 (has_exclusive_true _) Hex) as Hex'.
        repeat split; try done.
        intros H. destruct Hex' as (r & Hin & Hr). by destruct (H r Hin).
      * pose proof (proj1 (has_exclusive_false _) Hex) as Hex'.
        repeat split; try done.
        intros (r & Hin & Hr). by destruct (Hex' r Hin).
  - repeat split; try done.
    + intros _ r ->%list_elem_of_singleton. done.
    + intros (r & ->%list_elem_of_singleton & Hr). done.
Qed.

(** ** The loops of [Release] *)

Section grant_next.
Import LockManagerA.
Variables (w : gmap Txn Z) (ready : list Txn).

Lemma grant_next_zombies zs q :
  Forall (zombie w) zs → grant_next w ready (zs ++ q) = grant_next w ready q.
Proof.
  induction 1 as [|z zs Hz _ IH]; [done|].
  simpl. unfold zombie in Hz. by rewrite Hz.
Qed.

Lemma grant_next_all_zombies zs :
  Forall (zombie w) zs → grant_next w ready zs = ([], w, ready).
Proof.
  intros H. rewrite <- (app_nil_r zs). by rewrite grant_next_zombies.
Qed.

Lemma grant_next_live zs r rest c :
  Forall (zombie w) zs → w !! txn_ r = Some c →
  grant_next w ready (zs ++ r :: rest)
  = (r :: rest, <[txn_ r := c - 1]> w,
     if decide (c - 1 = 0) then ready ++ [txn_ r] else ready).
Proof.
  intros Hzs Hr. rewrite grant_next_zombies by done. simpl. by rewrite Hr.
Qed.

(** Every queue is a run of zombies, followed either by nothing or by a
    request whose transaction has a counter. *)
Lemma zombie_prefix q :
  Forall (zombie w) q ∨
  ∃ zs r rest c, q = zs ++ r :: rest ∧ Forall (zombie w) zs ∧
                 w !! txn_ r = Some c.
Proof.
  induction q as [|r q IH]; [by left|].
  destruct (w !! txn_ r) as [c|] eqn:Hr.
  - right. by exists [], r, q, c.
  - destruct IH as [IH|(zs & r' & rest & c & -> & Hzs & Hr')].
    + left. by constructor.
    + right. exists (r :: zs), r', rest, c. split; [done|].
      split; [by constructor|done].
Qed.
End grant_next.

Section notify.
Import LockManagerB.

Lemma notify_cases w ready o :
  (w !! o = None ∧ notify (w, ready) o = (w, ready)) ∨
  (∃ c, w !! o = Some c ∧ c - 1 = 0 ∧
        notify (w, ready) o = (delete o w, ready ++ [o])) ∨
  (∃ c, w !! o = Some c ∧ c - 1 ≠ 0 ∧
        notify (w, ready) o = (<[o := c - 1]> w, ready)).
Proof.
  unfold notify. simpl. destruct (w !! o) as [c|]; [|by left].
  right. case_decide; [left|right]; by exists c.
Qed.

(** What the loop over the owners does to the ready queue and to the
    counters: the transactions pushed are pairwise distinct owners; they
    are exactly the transactions whose entry the loop erased, and each
    had a counter of at least 1; a transaction without entry gets none. *)
Lemma foldl_notify_spec owners : ∀ w ready,
  ∃ pushed,
    (foldl notify (w, ready) owners).2 = ready ++ pushed ∧
    NoDup pushed ∧
    pushed ⊆ owners ∧
    (∀ t, t ∈ pushed ↔
          is_Some (w !! t) ∧ (foldl notify (w, ready) owners).1 !! t = None) ∧
    (∀ t, t ∈ pushed → ∃ c, w !! t = Some c ∧ 1 ≤ c) ∧
    (∀ t, w !! t = None → (foldl notify (w, ready) owners).1 !! t = None).
Proof.
  induction owners as [|o owners IH]; intros w ready.
  - exists []. simpl. rewrite app_nil_r.
    split; [done|]. split; [constructor|]. split; [done|].
    split; [|split; [by intros t ?%elem_of_nil|done]].
    intros t. split; [by intros ?%elem_of_nil|].
    intros [[c Hc] Hn]. congruence.
  - simpl.
    destruct (notify_cases w ready o)
      as [[Ho ->]|[(c & Ho & Hc & ->)|(c & Ho & Hc & ->)]].
    + destruct (IH w ready)
        as (pushed & Hready & Hnd & Hsub & Hiff & Hpos & Habs).
      exists pushed. split; [done|]. split; [done|].
      split; [clear -Hsub; set_solver|]. done.
    + (* [o] is pushed and erased now *)
      destruct (IH (delete o w) (ready ++ [o]))
        as (pushed & Hready & Hnd & Hsub & Hiff & Hpos & Habs).
      assert (o ∉ pushed) as Hfresh.
      { intros [[c' Hc'] _]%Hiff. by rewrite lookup_delete_eq in Hc'. }
      exists (o :: pushed). rewrite Hready, <- app_assoc. simpl.
      split; [done|]. split; [by constructor|].
      split.
      { intros t [->|Ht]%elem_of_cons; [by left|right; by apply Hsub]. }
      split; [|split].
      * intros t. rewrite elem_of_cons, Hiff. split.
        -- intros [->|[Ht Hn]].
           ++ split; [by eexists|]. apply Habs, lookup_delete_eq.
           ++ split; [|done]. destruct Ht as [c' Hc'].
              apply lookup_delete_Some in Hc' as [_ Hc']. by eexists.
        -- intros [[c' Hc'] Hn].
           destruct (decide (t = o)) as [->|Hne]; [by left|right].
           split; [|done]. exists c'. by rewrite lookup_delete_ne.
      * intros t [->|Ht]%elem_of_cons.
        -- exists c. split; [done|lia].
        -- destruct (Hpos t Ht) as (c' & Hc' & Hle).
           apply lookup_delete_Some in Hc' as [_ Hc']. eauto.
      * intros t Ht. apply Habs.
        destruct (decide (o = t)) as [->|Hne];
          [apply lookup_delete_eq | by rewrite lookup_delete_ne].
    + (* [o] is decremented and stays *)
      destruct (IH (<[o := c - 1]> w) ready)
        as (pushed & Hready & Hnd & Hsub & Hiff & Hpos & Habs).
      exists pushed. split; [done|]. split; [done|].
      split; [clear -Hsub; set_solver|]. split; [|split].
      * intros t. rewrite Hiff.
        destruct (decide (t = o)) as [->|Hne].
        -- rewrite lookup_insert_eq, Ho. split; intros [_ ?]; eauto.
        -- by rewrite lookup_insert_ne.
      * intros t Ht. destruct (Hpos t Ht) as (c' & Hc' & Hle).
        destruct (decide (t = o)) as [->|Hne].
        -- rewrite lookup_insert_eq in Hc'. injection Hc' as <-.
           exists c. split; [done|lia].
        -- rewrite lookup_insert_ne in Hc' by done. eauto.
      * intros t Ht. apply Habs. rewrite lookup_insert_ne; [done|].
        intros ->. congruence.
Qed.
End notify.

(** ** Variant A: cancelling a waiter, skipping zombies *)

Lemma StatusA_insert lm1 lm2 key q k :
  lock_table_ lm2 = <[key := q]> (lock_table_ lm1) →
  head q = lock_table_ lm1 !! key ≫= head →
  is_Some (lock_table_ lm1 !! key) →
  LockManagerA.Status lm2 k = LockManagerA.Status lm1 k.
Proof.
  intros Htbl Hhead [q1 Hq1]. unfold LockManagerA.Status. rewrite Htbl.
  destruct (decide (key = k)) as [->|Hne].
  - rewrite lookup_insert_eq. rewrite Hq1 in Hhead |- *. simpl in Hhead.
    destruct q as [|r q], q1 as [|r1 q1]; simpl in Hhead; try done.
    by injection Hhead as ->.
  - by rewrite lookup_insert_ne.
Qed.

(** C6. Variant A, [Release(txn,key)] on a key whose queue is
    [front :: rest].
    When [txn] is not the transaction of [front] (a request never
    granted): the first request of [txn] in the queue is removed (if it
    has one in [rest], exactly that one disappears and the others keep
    their order; if it has none, the queue is as before), the counter entry of [txn] is erased, every other
    transaction's counter is as before, the ready queue is as before, and
    [Status] of every key is as before (no lock is granted).
    When [txn] is the transaction of [front] and [rest] starts with a run
    [zs] of zombies (no counter entry): if [rest] is only that run, all of
    it is popped and counters and ready queue are unchanged; if the run is
    followed by a request [r] with counter [c], the run is popped, [r]
    becomes the front and the owner reported by [Status], its counter
    becomes [c - 1], it is appended to the ready queue exactly when
    [c - 1 = 0], and no zombie of the run is that transaction or gets a
    counter entry. *)
Theorem ReleaseA_waiter_cancel_and_zombie_skip lm txn key front rest :
  lock_table_ lm !! key = Some (front :: rest) →
  let lm' := LockManagerA.Release lm txn key in
  (txn_ front ≠ txn →
     lock_table_ lm' = <[key := front :: erase_first txn rest]> (lock_table_ lm) ∧
     (txn ∈ (txn_ <$> rest) →
        ∃ pre r post, rest = pre ++ r :: post ∧ txn_ r = txn ∧
                      (txn ∉ (txn_ <$> pre)) ∧
                      lock_table_ lm' !! key = Some (front :: pre ++ post)) ∧
     (txn ∉ (txn_ <$> rest) → lock_table_ lm' !! key = Some (front :: rest)) ∧
     txn_waits_ lm' = delete txn (txn_waits_ lm) ∧
     txn_waits_ lm' !! txn = None ∧
     (∀ t, t ≠ txn → txn_waits_ lm' !! t = txn_waits_ lm !! t) ∧
     ready_txns_ lm' = ready_txns_ lm ∧
     (∀ k, LockManagerA.Status lm' k = LockManagerA.Status lm k)) ∧
  (txn_ front = txn →
     ∀ zs, zs ≠ [] → Forall (zombie (txn_waits_ lm)) zs →
       (rest = zs →
          lock_table_ lm' = <[key := []]> (lock_table_ lm) ∧
          txn_waits_ lm' = txn_waits_ lm ∧
          ready_txns_ lm' = ready_txns_ lm) ∧
       (∀ r rest' c,
          rest = zs ++ r :: rest' → txn_waits_ lm !! txn_ r = Some c →
          lock_table_ lm' = <[key := r :: rest']> (lock_table_ lm) ∧
          txn_waits_ lm' = <[txn_ r := c - 1]> (txn_waits_ lm) ∧
          ready_txns_ lm'
            = (if decide (c - 1 = 0) then ready_txns_ lm ++ [txn_ r]
               else ready_txns_ lm) ∧
          LockManagerA.Status lm' key = (EXCLUSIVE, [txn_ r]) ∧
          Forall (λ z, txn_ z ≠ txn_ r ∧ txn_waits_ lm' !! txn_ z = None) zs)).
Proof.
  intros Hq lm'. split.
  - intros Hne.
    assert (lm' = {| lock_table_ :=
                       <[key := front :: erase_first txn rest]> (lock_table_ lm);
                     txn_waits_ := delete txn (txn_waits_ lm);
                     ready_txns_ := ready_txns_ lm |}) as ->.
    { subst lm'. unfold LockManagerA.Release. rewrite Hq.
      rewrite decide_True by done. by rewrite erase_first_skip. }
    simpl. split; [done|]. split.
    { intros (pre & r & post & -> & Hr & Hpre & Herase)%erase_first_present.
      exists pre, r, post. rewrite lookup_insert_eq, Herase. done. }
    split.
    { intros Habs. by rewrite lookup_insert_eq, erase_first_absent. }
    split; [done|]. split; [apply lookup_delete_eq|].
    split; [intros t Ht; by rewrite lookup_delete_ne|].
    split; [done|].
    intros k. eapply StatusA_insert; [done| |by eexists].
    by rewrite Hq.
  - intros Heq zs Hzs Hall. split.
    + intros ->. subst lm'. unfold LockManagerA.Release. rewrite Hq.
      rewrite decide_False by (intros ?; done).
      destruct zs as [|z zs]; [done|].
      by rewrite grant_next_all_zombies.
    + intros r rest' c -> Hr. subst lm'. unfold LockManagerA.Release.
      rewrite Hq. rewrite decide_False by (intros ?; done).
      destruct (zs ++ r :: rest') as [|x xs] eqn:Hxs;
        [by destruct zs|]. rewrite <- Hxs.
      rewrite (grant_next_live _ _ _ _ _ c) by done. simpl.
      repeat split; try done.
      * unfold LockManagerA.Status. simpl. by rewrite lookup_insert_eq.
      * eapply Forall_impl; [exact Hall|]. intros z Hz. unfold zombie in Hz.
        assert (txn_ z ≠ txn_ r) by (intros E; congruence).
        split; [done|]. by rewrite lookup_insert_ne.
Qed.

Lemma ReleaseA_waiter_cancel_and_zombie_skip_witness :
  let lm1 := LockManagerA.Release two_waits T2 "a" in
  let lm2 := LockManagerA.Release lm1 T3 "b" in
  (txn_waits_ two_waits !! T2 = Some 2 ∧
   txn_waits_ lm1 !! T2 = None ∧
   lock_table_ lm1 !! "a" = Some [mkLockRequest EXCLUSIVE T1] ∧
   ready_txns_ lm1 = ready_txns_ two_waits) ∧
  (lock_table_ lm2 = <["b" := [mkLockRequest EXCLUSIVE T4]]> (lock_table_ lm1) ∧
   ready_txns_ lm2 = ready_txns_ lm1 ++ [T4] ∧
   LockManagerA.Status lm2 "b" = (EXCLUSIVE, [T4])).
Proof.
  intros lm1 lm2. split.
  - destruct (ReleaseA_waiter_cancel_and_zombie_skip two_waits T2 "a"
                (mkLockRequest EXCLUSIVE T1) [mkLockRequest EXCLUSIVE T2]
                eq_refl) as [H _].
    destruct H as (Htbl & _ & _ & _ & Hw & _ & Hready & _); [done|].
    split; [reflexivity|]. split; [exact Hw|].
    split; [reflexivity|exact Hready].
  - destruct (ReleaseA_waiter_cancel_and_zombie_skip lm1 T3 "b"
                (mkLockRequest EXCLUSIVE T3)
                [mkLockRequest EXCLUSIVE T2; mkLockRequest EXCLUSIVE T4]
                eq_refl) as [_ H].
    destruct (H eq_refl [mkLockRequest EXCLUSIVE T2]) as [_ H'];
      [done|by repeat constructor|].
    destruct (H' (mkLockRequest EXCLUSIVE T4) [] 1 eq_refl eq_refl)
      as (Htbl & _ & Hready & Hst & _).
    split; [exact Htbl|]. split; [exact Hready|exact Hst].
Defined.


(** ** What a [Release] appends to the ready queue *)

Lemma not_reaches_zero_same lm lm' t :
  txn_waits_ lm' !! t = txn_waits_ lm !! t → ¬ reaches_zero lm lm' t.
Proof. intros H [H1 H2]. congruence. Qed.

Lemma nothing_appended lm lm' key :
  ready_txns_ lm' = ready_txns_ lm →
  (∀ t, ¬ reaches_zero lm lm' t) →
  ∃ pushed,
    ready_txns_ lm' = ready_txns_ lm ++ pushed ∧
    NoDup pushed ∧
    (∀ t, t ∈ pushed ↔ reaches_zero lm lm' t) ∧
    (∀ t, t ∈ pushed →
          txn_waits_ lm !! t = Some 1 ∧ t ∈ (LockManagerA.Status lm' key).2).
Proof.
  intros Hr Hz. exists []. rewrite app_nil_r.
  split; [done|]. split; [constructor|].
  split; [|by intros t ?%elem_of_nil].
  intros t. split; [by intros ?%elem_of_nil|]. intros H. by destruct (Hz t).
Qed.

(** Variant A: [Release] appends at most one transaction; it appends [t]
    exactly when the counter of [t] reaches zero in the call; the
    transaction appended had counter 1 and is the owner that [Status]
    reports for the key afterwards. *)
Lemma ReleaseA_ready lm txn key :
  ∃ pushed,
    ready_txns_ (LockManagerA.Release lm txn key) = ready_txns_ lm ++ pushed ∧
    NoDup pushed ∧
    (∀ t, t ∈ pushed ↔ reaches_zero lm (LockManagerA.Release lm txn key) t) ∧
    (∀ t, t ∈ pushed →
          txn_waits_ lm !! t = Some 1 ∧
          t ∈ (LockManagerA.Status (LockManagerA.Release lm txn key) key).2).
Proof.
  unfold LockManagerA.Release.
  destruct (lock_table_ lm !! key) as [[|front rest]|] eqn:Hq.
  - apply nothing_appended; [done|]. intros t. by apply not_reaches_zero_same.
  - destruct (decide (txn_ front ≠ txn)) as [Hne|Heq].
    { apply nothing_appended; [done|]. intros t [H1 H2]. simpl in H2.
      apply lookup_delete_Some in H2 as [_ H2]. done. }
    destruct rest as [|r0 rest0] eqn:Hrest.
    { apply nothing_appended; [done|]. intros t.
      by apply not_reaches_zero_same. }
    rewrite <- Hrest.
    destruct (zombie_prefix (txn_waits_ lm) rest)
      as [Hall|(zs & r & rest' & c & -> & Hzs & Hr)].
    + rewrite grant_next_all_zombies by done.
      apply nothing_appended; [done|]. intros t.
      by apply not_reaches_zero_same.
    + rewrite (grant_next_live _ _ _ _ _ c) by done.
      destruct (decide (c - 1 = 0)) as [Hc|Hc].
      * exists [txn_ r]. unfold reaches_zero, LockManagerA.Status. simpl.
        rewrite lookup_insert_eq. simpl.
        split; [done|]. split; [apply NoDup_singleton|]. split.
        -- intros t. rewrite list_elem_of_singleton. split.
           ++ intros ->. rewrite lookup_insert_eq, Hr, Hc.
              split; [|done]. intros [= ?]. lia.
           ++ intros [H1 H2]. destruct (decide (t = txn_ r)); [done|].
              by rewrite lookup_insert_ne in H2.
        -- intros t ->%list_elem_of_singleton. rewrite Hr.
           split; [f_equal; lia|]. by apply list_elem_of_singleton.
      * apply nothing_appended; [done|]. intros t [H1 H2]. simpl in H2.
        destruct (decide (t = txn_ r)) as [->|Hne].
        -- rewrite lookup_insert_eq in H2. by injection H2.
        -- by rewrite lookup_insert_ne in H2.
  - apply nothing_appended; [done|]. intros t. by apply not_reaches_zero_same.
Qed.

(** Variant B: a [Release] that does not fault replaces the key's queue by
    the queue without the first request of [txn] and keeps every table
    entry; the transactions it appends are pairwise distinct owners of the
    key; they are exactly those whose counter entry the call erased, and
    each had a counter of at least 1. *)
Lemma ReleaseB_ready lm txn key lm' :
  LockManagerB.Release lm txn key = Some lm' →
  ∃ q pushed,
    lock_table_ lm !! key = Some q ∧
    lock_table_ lm' = <[key := erase_first txn q]> (lock_table_ lm) ∧
    ready_txns_ lm' = ready_txns_ lm ++ pushed ∧
    NoDup pushed ∧
    pushed ⊆ (LockManagerB.Status lm' key).2 ∧
    (∀ t, t ∈ pushed ↔
          is_Some (txn_waits_ lm !! t) ∧ txn_waits_ lm' !! t = None) ∧
    (∀ t, t ∈ pushed → ∃ c, txn_waits_ lm !! t = Some c ∧ 1 ≤ c) ∧
    (∀ t, txn_waits_ lm !! t = None → txn_waits_ lm' !! t = None).
Proof.
  unfold LockManagerB.Release.
  destruct (lock_table_ lm !! key) as [q|] eqn:Hq; [|done].
  cbv zeta. simpl.
  set (lm1 := {| lock_table_ := <[key := erase_first txn q]> (lock_table_ lm);
                 txn_waits_ := txn_waits_ lm;
                 ready_txns_ := ready_txns_ lm |}).
  destruct (foldl_notify_spec (LockManagerB.Status lm1 key).2
              (txn_waits_ lm) (ready_txns_ lm))
    as (pushed & Hready & Hnd & Hsub & Hiff & Hpos & Habs).
  destruct (foldl LockManagerB.notify (txn_waits_ lm, ready_txns_ lm)
              (LockManagerB.Status lm1 key).2) as [w' ready'].
  intros [= <-]. exists q, pushed. simpl in *.
  repeat split; try done; by apply Hiff.
Qed.

(** ** What the lock requests do to the table and to the ready queue *)

Section lock_requests.
Variables (lm : LockManager) (txn : Txn) (key : Key).

Let q := default [] (lock_table_ lm !! key).

Lemma WriteLockA_table :
  lock_table_ (LockManagerA.WriteLock lm txn key).1
  = <[key := q ++ [mkLockRequest EXCLUSIVE txn]]> (lock_table_ lm) ∧
  ready_txns_ (LockManagerA.WriteLock lm txn key).1 = ready_txns_ lm ∧
  ((LockManagerA.WriteLock lm txn key).2 = true ↔ q = []).
Proof.
  subst q. unfold LockManagerA.WriteLock.
  destruct (lock_table_ lm !! key) as [q0|]; simpl; [|done].
  case_decide as Hlen; simpl; rewrite length_snoc_one in Hlen;
    repeat split; done.
Qed.

Lemma WriteLockB_table :
  lock_table_ (LockManagerB.WriteLock lm txn key).1
  = <[key := q ++ [mkLockRequest EXCLUSIVE txn]]> (lock_table_ lm) ∧
  ready_txns_ (LockManagerB.WriteLock lm txn key).1 = ready_txns_ lm ∧
  ((LockManagerB.WriteLock lm txn key).2 = true ↔ q = []).
Proof.
  subst q. unfold LockManagerB.WriteLock.
  destruct (lock_table_ lm !! key) as [q0|]; simpl; [|done].
  case_decide as Hlen; simpl; rewrite length_snoc_one in Hlen;
    repeat split; done.
Qed.

Lemma ReadLockB_table :
  lock_table_ (LockManagerB.ReadLock lm txn key).1
  = <[key := q ++ [mkLockRequest SHARED txn]]> (lock_table_ lm) ∧
  ready_txns_ (LockManagerB.ReadLock lm txn key).1 = ready_txns_ lm.
Proof.
  subst q. unfold LockManagerB.ReadLock.
  destruct (lock_table_ lm !! key) as [q0|]; simpl; [|done].
  case_decide; [done|]. by destruct (LockManagerB.has_exclusive _).
Qed.

End lock_requests.

Lemma no_empty_queue_insert lm lm' key q :
  no_empty_queue lm → q ≠ [] →
  lock_table_ lm' = <[key := q]> (lock_table_ lm) →
  no_empty_queue lm'.
Proof.
  unfold no_empty_queue. intros Hinv Hq ->. by apply map_Forall_insert_2.
Qed.

Lemma no_empty_queue_delete lm lm' key :
  no_empty_queue lm →
  lock_table_ lm' = delete key (lock_table_ lm) →
  no_empty_queue lm'.
Proof.
  unfold no_empty_queue. intros Hinv ->. by apply map_Forall_delete.
Qed.

Lemma snoc_not_nil {A} (l : list A) (x : A) : l ++ [x] ≠ [].
Proof. by destruct l. Qed.



(** ** The ready-queue contract *)




(** ** Writers are granted at the front only *)

Lemma shared_run_take q :
  LockManagerB.shared_run q
  = txn_ <$> take (length (LockManagerB.shared_run q)) q ∧
  Forall (λ r, mode_ r ≠ EXCLUSIVE)
         (take (length (LockManagerB.shared_run q)) q).
Proof.
  induction q as [|r q [IH1 IH2]]; [by split|].
  simpl. case_decide; simpl; [|by split].
  split; [f_equal; exact IH1|by constructor].
Qed.

Lemma StatusA_holders lm key q :
  lock_table_ lm !! key = Some q →
  writers_hold_alone (LockManagerA.Status lm key).2 q.
Proof.
  intros Hq. unfold LockManagerA.Status. rewrite Hq.
  destruct q as [|r q]; simpl; (split; [done|]); simpl; intros i r' _ _ Hi; lia.
Qed.

Lemma StatusB_holders lm key q :
  lock_table_ lm !! key = Some q →
  writers_hold_alone (LockManagerB.Status lm key).2 q.
Proof.
  intros Hq. unfold LockManagerB.Status. rewrite Hq.
  destruct q as [|r q]; [split; [done|]; simpl; intros; lia|].
  case_decide as Hmode.
  - split; [done|]. simpl. intros i r' _ _ Hi. lia.
  - destruct (shared_run_take (r :: q)) as [Hrun Hall].
    split; [done|]. intros i r' Hi Hr' Hlt. exfalso.
    rewrite Forall_forall in Hall. apply (Hall r'); [|done].
    apply list_elem_of_lookup. exists i. by rewrite lookup_take_lt.
Qed.

(** ** Keys mapped to an empty queue *)

(** C9, as stated, fails for [Release] of variant B, which has no code
    that erases a table entry: after [ReadLock(T1,"a")] on the empty
    manager no key has an empty queue; [Release(T1,"a")] then leaves "a"
    mapped to the empty queue. *)
Lemma ReleaseB_leaves_empty_queue :
  ¬ (∀ lm txn key lm',
       no_empty_queue lm → LockManagerB.Release lm txn key = Some lm' →
       no_empty_queue lm').
Proof.
  intros H.
  assert (no_empty_queue (LockManagerB.ReadLock new_manager T1 "a").1) as H0.
  { apply (bool_decide_unpack _). by vm_compute. }
  specialize (H _ T1 "a" _ H0 eq_refl).
  by apply (H "a" [] eq_refl).
Qed.

(** In variant A the loop that skips zombies can drain the queue; the key
    then stays in the table with an empty queue. Here T2 waits on "a" and
    on "b", cancels on "a" (which erases its counter) and is then skipped
    on "b". *)
Example ReleaseA_zombies_drain_queue :
  let lm1 := (LockManagerA.WriteLock new_manager T1 "a").1 in
  let lm2 := (LockManagerA.WriteLock lm1 T2 "a").1 in
  let lm3 := (LockManagerA.WriteLock lm2 T3 "b").1 in
  let lm4 := (LockManagerA.WriteLock lm3 T2 "b").1 in
  let lm5 := LockManagerA.Release lm4 T2 "a" in
  let lm6 := LockManagerA.Release lm5 T3 "b" in
  no_empty_queue lm5 ∧ lock_table_ lm6 !! "b" = Some [] ∧
  ready_txns_ lm6 = [].
Proof.
  cbv zeta. split; [apply (bool_decide_unpack _); by vm_compute|].
  split; reflexivity.
Qed.

Lemma ReleaseA_no_empty_queue lm txn key :
  no_empty_queue lm →
  (∀ front rest,
     lock_table_ lm !! key = Some (front :: rest) → txn_ front = txn →
     rest = [] ∨ ∃ r, r ∈ rest ∧ is_Some (txn_waits_ lm !! txn_ r)) →
  no_empty_queue (LockManagerA.Release lm txn key).
Proof.
  intros Hinv Hlive. unfold LockManagerA.Release.
  destruct (lock_table_ lm !! key) as [[|front rest]|] eqn:Hq; [done| |done].
  destruct (decide (txn_ front ≠ txn)) as [Hne|Heq].
  { eapply no_empty_queue_insert; [done| |done].
    by rewrite erase_first_skip. }
  assert (txn_ front = txn) as Hfront by (by destruct (decide (txn_ front = txn))).
  destruct (Hlive front rest eq_refl Hfront) as [->|(r & Hin & Hr)].
  { by eapply no_empty_queue_delete. }
  destruct rest as [|r0 rest0] eqn:Hrest; [by apply elem_of_nil in Hin|].
  rewrite <- Hrest in *.
  destruct (zombie_prefix (txn_waits_ lm) rest)
    as [Hall|(zs & r' & rest' & c & -> & Hzs & Hr')].
  - rewrite Forall_forall in Hall. specialize (Hall r Hin).
    unfold zombie in Hall. rewrite Hall in Hr. by destruct Hr.
  - rewrite (grant_next_live _ _ _ _ _ c) by done.
    eapply (no_empty_queue_insert lm _ key (r' :: rest')); done.
Qed.

(** C9, amended. If no key is mapped to an empty queue, then:
    - [WriteLock] and [ReadLock] of both variants keep it so;
    - [Release] of variant A by the holder of a queue that holds nothing
      else erases the key's entry from the table;
    - [Release] of variant A keeps it so, provided that, when [txn] holds
      the key, either nothing is queued behind it or some request behind
      it belongs to a transaction that has a counter entry;
    - [Release] of variant B, when it does not fault, erases no table
      entry (the keys of the table are the same after it), and keeps it so
      exactly when the key's queue, without the first request of [txn],
      is not empty. *)
Theorem no_empty_queue_preservation lm txn key :
  no_empty_queue lm →
  (no_empty_queue (LockManagerA.WriteLock lm txn key).1 ∧
   no_empty_queue (LockManagerA.ReadLock lm txn key).1 ∧
   no_empty_queue (LockManagerB.WriteLock lm txn key).1 ∧
   no_empty_queue (LockManagerB.ReadLock lm txn key).1) ∧
  (∀ front, lock_table_ lm !! key = Some [front] → txn_ front = txn →
     lock_table_ (LockManagerA.Release lm txn key) = delete key (lock_table_ lm)) ∧
  ((∀ front rest,
      lock_table_ lm !! key = Some (front :: rest) → txn_ front = txn →
      rest = [] ∨ ∃ r, r ∈ rest ∧ is_Some (txn_waits_ lm !! txn_ r)) →
   no_empty_queue (LockManagerA.Release lm txn key)) ∧
  (∀ lm', LockManagerB.Release lm txn key = Some lm' →
     dom (lock_table_ lm') = dom (lock_table_ lm) ∧
     ∃ q, lock_table_ lm !! key = Some q ∧
          lock_table_ lm' !! key = Some (erase_first txn q) ∧
          (no_empty_queue lm' ↔ erase_first txn q ≠ [])).
Proof.
  intros Hinv. split; [|split; [|split]].
  - unfold LockManagerA.ReadLock.
    repeat split; eapply no_empty_queue_insert; try exact Hinv;
      try apply snoc_not_nil.
    + apply WriteLockA_table.
    + apply WriteLockA_table.
    + apply WriteLockB_table.
    + apply ReadLockB_table.
  - intros front Hq Hfront. unfold LockManagerA.Release. rewrite Hq.
    by rewrite decide_False by (intros ?; done).
  - by apply ReleaseA_no_empty_queue.
  - intros lm' Hrel.
    destruct (ReleaseB_ready _ _ _ _ Hrel) as (q & pushed & Hq & Htbl & _).
    split.
    { rewrite Htbl, dom_insert_L.
      apply subseteq_union_1_L, singleton_subseteq_l, elem_of_dom.
      by eexists. }
    exists q. split; [done|]. split; [by rewrite Htbl, lookup_insert_eq|].
    split.
    + intros Hinv'. apply (Hinv' key). by rewrite Htbl, lookup_insert_eq.
    + intros Hne. by eapply no_empty_queue_insert.
Qed.

Lemma no_empty_queue_preservation_witness :
  no_empty_queue two_waits ∧
  no_empty_queue (LockManagerB.ReadLock two_waits T1 "c").1 ∧
  no_empty_queue (LockManagerA.Release two_waits T1 "a").
Proof.
  assert (no_empty_queue two_waits) as H0.
  { apply (bool_decide_unpack _). by vm_compute. }
  split; [exact H0|].
  destruct (no_empty_queue_preservation two_waits T1 "a" H0)
    as (_ & _ & HA & _).
  destruct (no_empty_queue_preservation two_waits T1 "c" H0)
    as ((_ & _ & _ & HB) & _).
  split; [exact HB|]. apply HA.
  intros front rest [= <- <-] _. right.
  exists (mkLockRequest EXCLUSIVE T2). split; [by left|by eexists].
Defined.


(** * Further properties of the two lock managers *)

(** ** Operations touch the queue of their key only *)

Lemma key_untouched_lookup k lm lm' :
  lock_table_ lm' !! k = lock_table_ lm !! k → key_untouched k lm lm'.
Proof.
  intros H. unfold key_untouched, LockManagerA.Status, LockManagerB.Status.
  by rewrite H.
Qed.

Lemma ReleaseA_table lm txn key :
  lock_table_ (LockManagerA.Release lm txn key) = lock_table_ lm ∨
  lock_table_ (LockManagerA.Release lm txn key) = delete key (lock_table_ lm) ∨
  ∃ q', lock_table_ (LockManagerA.Release lm txn key)
        = <[key := q']> (lock_table_ lm).
Proof.
  unfold LockManagerA.Release.
  destruct (lock_table_ lm !! key) as [[|front rest]|]; [by left| |by left].
  case_decide; [right; right; by eexists|].
  destruct rest as [|r rest]; [right; by left|].
  destruct (LockManagerA.grant_next _ _ _) as [[q' w'] ready'].
  right; right. by eexists.
Qed.

(** Every call on [key] leaves every other key [k] alone: its queue and
    what [Status] of either variant reports for it are as before. This
    holds for the lock requests and the [Release] of both variants. *)
Theorem other_keys_untouched lm txn key k :
  k ≠ key →
  key_untouched k lm (LockManagerA.WriteLock lm txn key).1 ∧
  key_untouched k lm (LockManagerA.ReadLock lm txn key).1 ∧
  key_untouched k lm (LockManagerA.Release lm txn key) ∧
  key_untouched k lm (LockManagerB.WriteLock lm txn key).1 ∧
  key_untouched k lm (LockManagerB.ReadLock lm txn key).1 ∧
  (∀ lm', LockManagerB.Release lm txn key = Some lm' → key_untouched k lm lm').
Proof.
  intros Hk. unfold LockManagerA.ReadLock.
  assert (key_untouched k lm (LockManagerA.WriteLock lm txn key).1) as HA.
  { apply key_untouched_lookup.
    destruct (WriteLockA_table lm txn key) as (-> & _).
    by rewrite lookup_insert_ne. }
  split; [done|]. split; [done|]. split; [|split; [|split]].
  - apply key_untouched_lookup.
    destruct (ReleaseA_table lm txn key) as [->|[->|[q' ->]]]; [done| |].
    + by rewrite lookup_delete_ne.
    + by rewrite lookup_insert_ne.
  - apply key_untouched_lookup.
    destruct (WriteLockB_table lm txn key) as (-> & _).
    by rewrite lookup_insert_ne.
  - apply key_untouched_lookup.
    destruct (ReadLockB_table lm txn key) as (-> & _).
    by rewrite lookup_insert_ne.
  - intros lm' Hrel. apply key_untouched_lookup.
    destruct (ReleaseB_ready _ _ _ _ Hrel) as (q & pushed & _ & -> & _).
    by rewrite lookup_insert_ne.
Qed.

Lemma other_keys_untouched_witness :
  key_untouched "a" two_waits (LockManagerA.Release two_waits T3 "b") ∧
  key_untouched "a" two_waits (LockManagerB.ReadLock two_waits T1 "b").1.
Proof.
  destruct (other_keys_untouched two_waits T3 "b" "a") as (_ & _ & H & _);
    [done|].
  destruct (other_keys_untouched two_waits T1 "b" "a") as (_ & _ & _ & _ & H' & _);
    [done|].
  by split.
Defined.

(** ** Lock requests: result, holders and counters *)

Lemma shared_run_all q :
  (∀ r, r ∈ q → mode_ r ≠ EXCLUSIVE) →
  LockManagerB.shared_run q = txn_ <$> q.
Proof.
  induction q as [|r q IH]; [done|]. intros H. simpl.
  rewrite decide_True by (apply H; by left).
  rewrite IH; [done|]. intros r' Hr'. apply H. by right.
Qed.

Lemma shared_run_app q q2 :
  LockManagerB.has_exclusive q = true →
  LockManagerB.shared_run (q ++ q2) = LockManagerB.shared_run q.
Proof.
  induction q as [|r q IH]; [done|]. simpl.
  destruct (decide (mode_ r ≠ EXCLUSIVE)) as [Hr|Hr]; [|done].
  rewrite bool_decide_eq_false_2 by done. simpl. intros H. by rewrite IH.
Qed.

Lemma shared_run_snoc_exclusive q txn :
  LockManagerB.shared_run (q ++ [mkLockRequest EXCLUSIVE txn])
  = LockManagerB.shared_run q.
Proof.
  induction q as [|r q IH]; simpl.
  - reflexivity.
  - case_decide; [by rewrite IH|done].
Qed.

Lemma has_exclusive_snoc_shared q txn :
  LockManagerB.has_exclusive (q ++ [mkLockRequest SHARED txn])
  = LockManagerB.has_exclusive q.
Proof.
  unfold LockManagerB.has_exclusive. rewrite existsb_app. simpl.
  by rewrite !orb_false_r.
Qed.

Lemma ReadLockB_result lm txn key :
  (LockManagerB.ReadLock lm txn key).2
  = negb (LockManagerB.has_exclusive (default [] (lock_table_ lm !! key))).
Proof.
  unfold LockManagerB.ReadLock.
  destruct (lock_table_ lm !! key) as [q|]; simpl; [|done].
  case_decide as Hlen.
  - by apply length_snoc_one in Hlen as ->.
  - rewrite has_exclusive_snoc_shared.
    by destruct (LockManagerB.has_exclusive q).
Qed.

(** The counters after a lock request: the entry of [txn] is 0 after a
    grant and one more than before (from 0 if absent) after a wait. *)
Lemma lock_request_waits lm txn key :
  let after (res : LockManager * bool) :=
    txn_waits_ res.1
    = if res.2 then <[txn := 0]> (txn_waits_ lm)
      else waits_incr txn (txn_waits_ lm) in
  after (LockManagerA.WriteLock lm txn key) ∧
  after (LockManagerB.WriteLock lm txn key) ∧
  after (LockManagerB.ReadLock lm txn key).
Proof.
  cbv zeta.
  unfold LockManagerA.WriteLock, LockManagerB.WriteLock, LockManagerB.ReadLock.
  destruct (lock_table_ lm !! key) as [q|]; simpl; [|done].
  repeat case_decide; simpl; try done;
    by destruct (LockManagerB.has_exclusive _).
Qed.

(** The result of a lock request agrees with [Status]. A granted
    [WriteLock] makes [txn] the one EXCLUSIVE owner of the key; a granted
    [ReadLock] of variant B makes the key SHARED and adds [txn] at the end
    of the owners reported before; a request that has to wait leaves
    [Status] of the key as it was. *)
Theorem grant_agrees_with_status lm txn key :
  (let res := LockManagerA.WriteLock lm txn key in
   (res.2 = true → LockManagerA.Status res.1 key = (EXCLUSIVE, [txn])) ∧
   (res.2 = false → LockManagerA.Status res.1 key = LockManagerA.Status lm key)) ∧
  (let res := LockManagerB.WriteLock lm txn key in
   (res.2 = true → LockManagerB.Status res.1 key = (EXCLUSIVE, [txn])) ∧
   (res.2 = false → LockManagerB.Status res.1 key = LockManagerB.Status lm key)) ∧
  (let res := LockManagerB.ReadLock lm txn key in
   (res.2 = true →
    LockManagerB.Status res.1 key
    = (SHARED, (LockManagerB.Status lm key).2 ++ [txn])) ∧
   (res.2 = false → LockManagerB.Status res.1 key = LockManagerB.Status lm key)).
Proof.
  split; [|split]; cbv zeta.
  - destruct (WriteLockA_table lm txn key) as (Htbl & _ & Hres).
    unfold LockManagerA.Status. rewrite Htbl, lookup_insert_eq.
    destruct (lock_table_ lm !! key) as [[|r q]|]; simpl in *.
    + split; [done|]. intros Hf. destruct Hres as [_ Hres].
      rewrite Hres in Hf; done.
    + split; [|done]. by intros ?%Hres.
    + split; [done|]. intros Hf. destruct Hres as [_ Hres].
      rewrite Hres in Hf; done.
  - destruct (WriteLockB_table lm txn key) as (Htbl & _ & Hres).
    unfold LockManagerB.Status. rewrite Htbl, lookup_insert_eq.
    destruct (lock_table_ lm !! key) as [[|r q]|]; simpl in *.
    + split; [done|]. intros Hf. destruct Hres as [_ Hres].
      rewrite Hres in Hf; done.
    + split; [by intros ?%Hres|]. intros _.
      case_decide; [done|]. by rewrite shared_run_snoc_exclusive.
    + split; [done|]. intros Hf. destruct Hres as [_ Hres].
      rewrite Hres in Hf; done.
  - destruct (ReadLockB_table lm txn key) as (Htbl & _).
    rewrite ReadLockB_result.
    unfold LockManagerB.Status. rewrite Htbl, lookup_insert_eq.
    destruct (lock_table_ lm !! key) as [[|r q]|]; simpl; [done| |done].
    destruct (decide (mode_ r = EXCLUSIVE)) as [Hr|Hr].
    + rewrite bool_decide_eq_true_2 by done. simpl. by split.
    + rewrite bool_decide_eq_false_2 by done. simpl.
      rewrite !decide_True by done. split.
      * intros Hno%negb_true_iff.
        pose proof (proj1 (has_exclusive_false _) Hno) as Hall.
        rewrite (shared_run_all q) by done.
        rewrite shared_run_all; [by rewrite fmap_app|].
        intros r' [Hr'|Hr']%elem_of_app; [by apply Hall|].
        by apply list_elem_of_singleton in Hr' as ->.
      * intros Hex%negb_false_iff. by rewrite shared_run_app.
Qed.

(** A lock request changes the counter of [txn] only: a [WriteLock] of
    either variant that has to wait adds one to it (starting from 0 when
    [txn] has no entry), and after any lock request every other
    transaction has the counter it had. *)
Theorem lock_request_counters lm txn key :
  ((LockManagerA.WriteLock lm txn key).2 = false →
   txn_waits_ (LockManagerA.WriteLock lm txn key).1
   = <[txn := default 0 (txn_waits_ lm !! txn) + 1]> (txn_waits_ lm)) ∧
  ((LockManagerB.WriteLock lm txn key).2 = false →
   txn_waits_ (LockManagerB.WriteLock lm txn key).1
   = <[txn := default 0 (txn_waits_ lm !! txn) + 1]> (txn_waits_ lm)) ∧
  (∀ t, t ≠ txn →
     txn_waits_ (LockManagerA.WriteLock lm txn key).1 !! t = txn_waits_ lm !! t ∧
     txn_waits_ (LockManagerA.ReadLock lm txn key).1 !! t = txn_waits_ lm !! t ∧
     txn_waits_ (LockManagerB.WriteLock lm txn key).1 !! t = txn_waits_ lm !! t ∧
     txn_waits_ (LockManagerB.ReadLock lm txn key).1 !! t = txn_waits_ lm !! t).
Proof.
  destruct (lock_request_waits lm txn key) as (HA & HB & HR).
  unfold LockManagerA.ReadLock.
  split; [by intros H; rewrite HA, H|]. split; [by intros H; rewrite HB, H|].
  intros t Ht. rewrite HA, HB, HR. unfold waits_incr.
  repeat split;
    match goal with |- context [if ?b then _ else _] => destruct b end;
    by rewrite lookup_insert_ne.
Qed.

(** The lock requests keep the counters nonnegative: if no counter is
    negative before a [WriteLock] or [ReadLock] of either variant, none is
    after it. *)
Theorem lock_requests_keep_counters_nonneg lm txn key :
  waits_nonneg lm →
  waits_nonneg (LockManagerA.WriteLock lm txn key).1 ∧
  waits_nonneg (LockManagerA.ReadLock lm txn key).1 ∧
  waits_nonneg (LockManagerB.WriteLock lm txn key).1 ∧
  waits_nonneg (LockManagerB.ReadLock lm txn key).1.
Proof.
  intros Hinv.
  assert (∀ b : bool,
            map_Forall (λ _ c, 0 ≤ c)
              (if b then <[txn := 0]> (txn_waits_ lm)
               else waits_incr txn (txn_waits_ lm))) as Hboth.
  { intros [|]; apply map_Forall_insert_2; try done.
    destruct (txn_waits_ lm !! txn) as [c|] eqn:Hc; simpl; [|lia].
    specialize (Hinv txn c Hc). simpl in Hinv. lia. }
  destruct (lock_request_waits lm txn key) as (HA & HB & HR).
  unfold waits_nonneg, LockManagerA.ReadLock. rewrite HA, HB, HR.
  repeat split; apply Hboth.
Qed.

Lemma lock_requests_keep_counters_nonneg_witness :
  waits_nonneg two_waits ∧
  waits_nonneg (LockManagerA.WriteLock two_waits T4 "a").1 ∧
  waits_nonneg (LockManagerB.ReadLock two_waits T1 "b").1.
Proof.
  assert (waits_nonneg two_waits) as H0.
  { apply (bool_decide_unpack _). by vm_compute. }
  split; [exact H0|].
  destruct (lock_requests_keep_counters_nonneg two_waits T4 "a" H0)
    as (HA & _).
  destruct (lock_requests_keep_counters_nonneg two_waits T1 "b" H0)
    as (_ & _ & _ & HB).
  by split.
Defined.

(** ** Variant B: what [Release] does to the counters *)

Lemma occurrences_cons t o owners :
  occurrences t (o :: owners)
  = (if decide (o = t) then 1 else 0) + occurrences t owners.
Proof.
  unfold occurrences. rewrite filter_cons.
  case_decide; simpl length; lia.
Qed.

Lemma occurrences_nonneg t owners : 0 ≤ occurrences t owners.
Proof. unfold occurrences. lia. Qed.

Lemma occurrences_pos t owners : t ∈ owners → 1 ≤ occurrences t owners.
Proof.
  induction 1 as [t owners|t o owners _ IH]; rewrite occurrences_cons.
  - rewrite decide_True by done. pose proof (occurrences_nonneg t owners). lia.
  - case_decide; lia.
Qed.

Lemma occurrences_zero t owners : t ∉ owners → occurrences t owners = 0.
Proof.
  induction owners as [|o owners IH]; [done|].
  rewrite not_elem_of_cons, occurrences_cons. intros [Hne Hin].
  rewrite decide_False by done. rewrite IH by done. lia.
Qed.

(** The loop over the owners, counter by counter: a transaction without
    entry gets none; an entry [c] of a transaction that is [n] times among
    the owners is erased when [1 ≤ c ≤ n] (it passes through 0 on the
    way), and is [c - n] otherwise. *)
Lemma foldl_notify_counter owners : ∀ w ready t,
  (foldl LockManagerB.notify (w, ready) owners).1 !! t
  = match w !! t with
    | None => None
    | Some c =>
        if decide (1 ≤ c ≤ occurrences t owners) then None
        else Some (c - occurrences t owners)
    end.
Proof.
  induction owners as [|o owners IH]; intros w ready t.
  - simpl. destruct (w !! t) as [c|]; [|done].
    unfold occurrences. simpl. rewrite decide_False by lia.
    f_equal. lia.
  - simpl. rewrite occurrences_cons.
    pose proof (occurrences_nonneg t owners) as Hn.
    destruct (notify_cases w ready o)
      as [[Ho ->]|[(c & Ho & Hc & ->)|(c & Ho & Hc & ->)]]; rewrite IH.
    + destruct (w !! t) as [c|] eqn:Ht; [|done].
      rewrite (decide_False (P := o = t)) by congruence.
      by rewrite Z.add_0_l.
    + destruct (decide (o = t)) as [->|Hne].
      * rewrite lookup_delete_eq, Ho. rewrite decide_True by lia. done.
      * rewrite lookup_delete_ne by done.
        destruct (w !! t) as [c'|]; [|done]. by rewrite Z.add_0_l.
    + destruct (decide (o = t)) as [->|Hne].
      * rewrite lookup_insert_eq, Ho.
        repeat case_decide; try lia; try done. f_equal. lia.
      * rewrite lookup_insert_ne by done.
        destruct (w !! t) as [c'|]; [|done]. by rewrite Z.add_0_l.
Qed.

Lemma ReleaseB_counter_of lm txn key lm' t :
  LockManagerB.Release lm txn key = Some lm' →
  txn_waits_ lm' !! t
  = match txn_waits_ lm !! t with
    | None => None
    | Some c =>
        if decide (1 ≤ c ≤ occurrences t (LockManagerB.Status lm' key).2)
        then None
        else Some (c - occurrences t (LockManagerB.Status lm' key).2)
    end.
Proof.
  unfold LockManagerB.Release.
  destruct (lock_table_ lm !! key) as [q|]; [|done]. cbv zeta. simpl.
  set (lm1 := {| lock_table_ := <[key := erase_first txn q]> (lock_table_ lm);
                 txn_waits_ := txn_waits_ lm;
                 ready_txns_ := ready_txns_ lm |}).
  pose proof (foldl_notify_counter (LockManagerB.Status lm1 key).2
                (txn_waits_ lm) (ready_txns_ lm) t) as H.
  destruct (foldl LockManagerB.notify _ _) as [w' ready'].
  intros [= <-]. exact H.
Qed.

(** Variant B, a [Release] that does not fault, counter by counter. Let
    [n] be the number of times [t] is among the holders that [Status]
    reports for the key after the removal. A transaction without counter
    entry still has none. An entry [c] with [1 ≤ c ≤ n] is erased.
    Any other entry becomes [c - n]: the counter of a holder goes down
    whatever its value, below zero too. *)
Theorem ReleaseB_counters lm txn key lm' :
  LockManagerB.Release lm txn key = Some lm' →
  ∀ t,
    let n := occurrences t (LockManagerB.Status lm' key).2 in
    (txn_waits_ lm !! t = None → txn_waits_ lm' !! t = None) ∧
    (∀ c, txn_waits_ lm !! t = Some c →
          (1 ≤ c ≤ n → txn_waits_ lm' !! t = None) ∧
          (¬ (1 ≤ c ≤ n) → txn_waits_ lm' !! t = Some (c - n))).
Proof.
  intros Hrel t n. rewrite (ReleaseB_counter_of _ _ _ _ t Hrel). subst n.
  split; [by intros ->|]. intros c ->.
  split; intros H; [by rewrite decide_True|by rewrite decide_False].
Qed.

Lemma ReleaseB_counters_witness :
  ∃ lm', LockManagerB.Release two_readers_one_writer T1 "a" = Some lm' ∧
         txn_waits_ lm' !! T2 = Some (0 - 1) ∧
         txn_waits_ lm' !! T3 = Some (1 - 0).
Proof.
  destruct (LockManagerB.Release two_readers_one_writer T1 "a")
    as [lm'|] eqn:Hrel; [|by vm_compute in Hrel].
  exists lm'. split; [done|].
  pose proof (ReleaseB_counters _ _ _ _ Hrel) as H.
  vm_compute in Hrel. injection Hrel as <-.
  split.
  - destruct (H T2) as [_ H2]. destruct (H2 0 eq_refl) as [_ H2'].
    apply H2'. vm_compute. intros [Hle _]. by apply Hle.
  - destruct (H T3) as [_ H3]. destruct (H3 1 eq_refl) as [_ H3'].
    apply H3'. vm_compute. intros [_ Hle]. by apply Hle.
Defined.

(** Variant B: a [Release] that does not fault changes the counters of
    the key's holders only. A transaction that [Status] does not report
    as holder of the key after the removal keeps its counter (or keeps
    having none); a holder that has a counter entry never keeps its
    value. *)
Theorem ReleaseB_touches_holders_only lm txn key lm' :
  LockManagerB.Release lm txn key = Some lm' →
  ∀ t,
    (t ∉ (LockManagerB.Status lm' key).2 →
     txn_waits_ lm' !! t = txn_waits_ lm !! t) ∧
    (t ∈ (LockManagerB.Status lm' key).2 → is_Some (txn_waits_ lm !! t) →
     txn_waits_ lm' !! t ≠ txn_waits_ lm !! t).
Proof.
  intros Hrel t. rewrite (ReleaseB_counter_of _ _ _ _ t Hrel). split.
  - intros Ht%occurrences_zero. rewrite Ht.
    destruct (txn_waits_ lm !! t) as [c|]; [|done].
    rewrite decide_False by lia. f_equal. lia.
  - intros Ht%occurrences_pos [c ->].
    case_decide; [done|]. intros [= ?]. lia.
Qed.

Lemma ReleaseB_touches_holders_only_witness :
  ∃ lm', LockManagerB.Release two_readers_one_writer T1 "a" = Some lm' ∧
         txn_waits_ lm' !! T3 = txn_waits_ two_readers_one_writer !! T3 ∧
         txn_waits_ lm' !! T2 ≠ txn_waits_ two_readers_one_writer !! T2.
Proof.
  destruct (LockManagerB.Release two_readers_one_writer T1 "a")
    as [lm'|] eqn:Hrel; [|by vm_compute in Hrel].
  exists lm'. split; [done|].
  pose proof (ReleaseB_touches_holders_only _ _ _ _ Hrel) as H.
  vm_compute in Hrel. injection Hrel as <-.
  split.
  - apply (H T3). vm_compute.
    intros Hin. apply list_elem_of_singleton in Hin. discriminate Hin.
  - apply (H T2); [vm_compute; by left|by eexists].
Defined.

(** ** [Release] without a request, [Release] on an empty queue *)

(** Variant B, [Release(txn,key)] by a transaction that has no request in
    the key's queue, on a key that has a table entry: the lock table and
    [Status] of the key are as before, and yet every holder of the key
    that has a counter entry has its counter changed (decremented, or
    erased on reaching 0). *)
Theorem ReleaseB_without_request lm txn key q lm' :
  lock_table_ lm !! key = Some q →
  txn ∉ (txn_ <$> q) →
  LockManagerB.Release lm txn key = Some lm' →
  lock_table_ lm' = lock_table_ lm ∧
  LockManagerB.Status lm' key = LockManagerB.Status lm key ∧
  ∀ t, t ∈ (LockManagerB.Status lm key).2 → is_Some (txn_waits_ lm !! t) →
       txn_waits_ lm' !! t ≠ txn_waits_ lm !! t.
Proof.
  intros Hq Habs Hrel.
  destruct (ReleaseB_ready _ _ _ _ Hrel) as (q0 & pushed & Hq0 & Htbl & _).
  assert (lock_table_ lm' = lock_table_ lm) as Hsame.
  { rewrite Htbl. rewrite Hq in Hq0. injection Hq0 as <-.
    rewrite erase_first_absent by done. by apply insert_id. }
  assert (LockManagerB.Status lm' key = LockManagerB.Status lm key) as Hst.
  { unfold LockManagerB.Status. by rewrite Hsame. }
  split; [done|]. split; [done|].
  intros t Ht [c Hc]. rewrite <- Hst in Ht. apply occurrences_pos in Ht.
  rewrite (ReleaseB_counter_of _ _ _ _ t Hrel), Hc.
  case_decide; [done|]. intros [= ?]. lia.
Qed.

Lemma ReleaseB_without_request_witness :
  ∃ lm', LockManagerB.Release two_readers_one_writer T4 "a" = Some lm' ∧
         lock_table_ lm' = lock_table_ two_readers_one_writer ∧
         txn_waits_ lm' !! T1 ≠ txn_waits_ two_readers_one_writer !! T1.
Proof.
  destruct (LockManagerB.Release two_readers_one_writer T4 "a")
    as [lm'|] eqn:Hrel; [|by vm_compute in Hrel].
  exists lm'. split; [done|].
  destruct (ReleaseB_without_request two_readers_one_writer T4 "a"
              [mkLockRequest SHARED T1; mkLockRequest SHARED T2;
               mkLockRequest EXCLUSIVE T3] lm' eq_refl)
    as (Htbl & _ & Hw); [|exact Hrel|].
  - vm_compute. intros Hin.
    repeat (apply elem_of_cons in Hin as [Hin|Hin]; [discriminate Hin|]).
    by apply elem_of_nil in Hin.
  - split; [exact Htbl|]. apply Hw; [vm_compute; by left|by eexists].
Defined.

(** A key mapped to an empty queue (variant B leaves one after the last
    release, variant A after a run of zombies): [Release] on it changes
    nothing in either variant, and in variant B it does not fault. *)
Theorem release_on_empty_queue lm txn key :
  lock_table_ lm !! key = Some [] →
  LockManagerA.Release lm txn key = lm ∧
  LockManagerB.Release lm txn key = Some lm.
Proof.
  intros Hq. unfold LockManagerA.Release, LockManagerB.Release.
  rewrite Hq. split; [done|]. cbv zeta. simpl.
  unfold LockManagerB.Status. simpl. rewrite lookup_insert_eq. simpl.
  rewrite insert_id by done. by destruct lm.
Qed.

Lemma release_on_empty_queue_witness :
  ∃ lm, LockManagerB.Release (LockManagerB.ReadLock new_manager T1 "a").1 T1 "a"
        = Some lm ∧
        LockManagerA.Release lm T1 "a" = lm ∧
        LockManagerB.Release lm T2 "a" = Some lm.
Proof.
  eexists. split; [reflexivity|].
  split; [by apply release_on_empty_queue|].
  by apply (release_on_empty_queue _ T2 "a").
Defined.

(** ** Queues only lose requests on [Release] *)

Lemma erase_first_sublist txn q : erase_first txn q `sublist_of` q.
Proof.
  induction q as [|r q IH]; [done|]. simpl.
  case_decide; [by apply sublist_cons|by apply sublist_skip].
Qed.

Lemma grant_next_suffix w ready q :
  (LockManagerA.grant_next w ready q).1.1 `suffix_of` q.
Proof.
  induction q as [|r q IH]; [done|]. simpl.
  destruct (w !! txn_ r); [done|]. by apply suffix_cons_r.
Qed.

Lemma Forall_of_sublist {A} (P : A → Prop) (l1 l2 : list A) :
  l1 `sublist_of` l2 → Forall P l2 → Forall P l1.
Proof.
  induction 1 as [|x l1 l2 _ IH|x l1 l2 _ IH]; [done| |].
  - intros [Hx H]%Forall_cons. constructor; [done|by apply IH].
  - intros [_ H]%Forall_cons. by apply IH.
Qed.

Lemma ReleaseA_queue lm txn key q' :
  lock_table_ (LockManagerA.Release lm txn key) !! key = Some q' →
  ∃ q, lock_table_ lm !! key = Some q ∧ q' `sublist_of` q.
Proof.
  unfold LockManagerA.Release.
  destruct (lock_table_ lm !! key) as [[|front rest]|] eqn:Hq.
  - intros H. exists []. split; [done|]. rewrite Hq in H. by injection H as <-.
  - case_decide.
    + simpl. rewrite lookup_insert_eq. intros [= <-]. eexists. split; [done|].
      apply (erase_first_sublist txn (front :: rest)).
    + destruct rest as [|r rest0] eqn:Hrest.
      { simpl. by rewrite lookup_delete_eq. }
      rewrite <- Hrest.
      pose proof (grant_next_suffix (txn_waits_ lm) (ready_txns_ lm) rest)
        as Hsuf.
      destruct (LockManagerA.grant_next _ _ rest) as [[q1 w'] ready'].
      simpl in *. rewrite lookup_insert_eq. intros [= <-].
      eexists. split; [done|].
      destruct Hsuf as [k ->]. by apply sublist_cons, sublist_inserts_l.
  - intros H. by rewrite Hq in H.
Qed.

Lemma release_shrinks lm txn key :
  queues_shrink lm (LockManagerA.Release lm txn key) ∧
  (∀ lm', LockManagerB.Release lm txn key = Some lm' → queues_shrink lm lm').
Proof.
  split.
  - intros k q' Hq'. destruct (decide (k = key)) as [->|Hne].
    + by apply (ReleaseA_queue lm txn key).
    + exists q'. split; [|done]. rewrite <- Hq'. symmetry.
      destruct (ReleaseA_table lm txn key) as [->|[->|[q1 ->]]]; [done| |].
      * by rewrite lookup_delete_ne.
      * by rewrite lookup_insert_ne.
  - intros lm' Hrel k q' Hq'.
    destruct (ReleaseB_ready _ _ _ _ Hrel) as (q & pushed & Hq & Htbl & _).
    rewrite Htbl in Hq'. destruct (decide (k = key)) as [->|Hne].
    + rewrite lookup_insert_eq in Hq'. injection Hq' as <-.
      exists q. split; [done|]. apply erase_first_sublist.
    + rewrite lookup_insert_ne in Hq' by done. by exists q'.
Qed.

(** [Release] of either variant (variant B: when it does not fault) adds
    no key to the table and no request to any queue, and reorders none:
    every queue after the call is a sublist of the queue the key had
    before; in particular a request that is behind another one after the
    call was behind it before. *)
Theorem release_only_removes lm txn key :
  queues_shrink lm (LockManagerA.Release lm txn key) ∧
  (∀ lm', LockManagerB.Release lm txn key = Some lm' → queues_shrink lm lm').
Proof. apply release_shrinks. Qed.

(** ** Variant A stores EXCLUSIVE requests only *)

(** If every request in the table is EXCLUSIVE, it is still so after
    [WriteLock], [ReadLock] and [Release] of variant A: the mode EXCLUSIVE
    that [Status] of variant A reports is the mode of the request at the
    front. *)
Theorem variantA_keeps_all_exclusive lm txn key :
  all_exclusive lm →
  all_exclusive (LockManagerA.WriteLock lm txn key).1 ∧
  all_exclusive (LockManagerA.ReadLock lm txn key).1 ∧
  all_exclusive (LockManagerA.Release lm txn key).
Proof.
  intros Hinv. unfold LockManagerA.ReadLock.
  assert (all_exclusive (LockManagerA.WriteLock lm txn key).1) as HW.
  { unfold all_exclusive. destruct (WriteLockA_table lm txn key) as (-> & _).
    apply map_Forall_insert_2; [|done].
    apply Forall_app. split; [|by repeat constructor].
    destruct (lock_table_ lm !! key) as [q|] eqn:Hq; [|done].
    apply (Hinv key q Hq). }
  split; [done|]. split; [done|].
  intros k q' Hq'.
  destruct (proj1 (release_shrinks lm txn key) k q' Hq') as (q & Hq & Hsub).
  eapply Forall_of_sublist; [done|]. apply (Hinv k q Hq).
Qed.

Lemma variantA_keeps_all_exclusive_witness :
  all_exclusive two_waits ∧
  all_exclusive (LockManagerA.ReadLock two_waits T1 "c").1 ∧
  all_exclusive (LockManagerA.Release two_waits T3 "b").
Proof.
  assert (all_exclusive two_waits) as H0.
  { apply (bool_decide_unpack _). by vm_compute. }
  split; [exact H0|].
  destruct (variantA_keeps_all_exclusive two_waits T1 "c" H0) as (_ & HR & _).
  destruct (variantA_keeps_all_exclusive two_waits T3 "b" H0) as (_ & _ & HL).
  by split.
Defined.

(** ** Lock, then release, on a free key *)

(** On a key without table entry, a lock request followed by the release
    of the same transaction: variant A puts the lock table back as it was
    (the key's entry is erased again); variant B leaves the key mapped to
    an empty queue, after [WriteLock] and after [ReadLock] alike. In both
    variants the ready queue is untouched, the counter of the transaction
    is left at 0 and the other counters are untouched, and [Status]
    reports the key UNLOCKED. *)
Theorem lock_release_on_free_key lm txn key :
  lock_table_ lm !! key = None →
  let after tbl := {| lock_table_ := tbl;
                      txn_waits_ := <[txn := 0]> (txn_waits_ lm);
                      ready_txns_ := ready_txns_ lm |} in
  LockManagerA.Release (LockManagerA.WriteLock lm txn key).1 txn key
  = after (lock_table_ lm) ∧
  LockManagerB.Release (LockManagerB.WriteLock lm txn key).1 txn key
  = Some (after (<[key := []]> (lock_table_ lm))) ∧
  LockManagerB.Release (LockManagerB.ReadLock lm txn key).1 txn key
  = Some (after (<[key := []]> (lock_table_ lm))) ∧
  LockManagerA.Status (after (lock_table_ lm)) key = (UNLOCKED, []) ∧
  LockManagerB.Status (after (<[key := []]> (lock_table_ lm))) key
  = (UNLOCKED, []).
Proof.
  intros Hfree after.
  unfold LockManagerA.WriteLock, LockManagerB.WriteLock, LockManagerB.ReadLock.
  rewrite Hfree. simpl.
  unfold LockManagerA.Release, LockManagerB.Release. simpl.
  rewrite !lookup_insert_eq. cbv zeta. simpl.
  rewrite !(decide_True (P := txn = txn)) by done.
  rewrite (decide_False (P := txn ≠ txn)) by (intros H; by apply H).
  unfold LockManagerA.Status, LockManagerB.Status. simpl.
  rewrite !lookup_insert_eq, Hfree. simpl.
  rewrite delete_insert_id by done. rewrite !insert_insert_eq.
  by repeat split.
Qed.

Lemma lock_release_on_free_key_witness :
  lock_table_ (LockManagerA.Release
                 (LockManagerA.WriteLock two_waits T1 "c").1 T1 "c")
  = lock_table_ two_waits ∧
  ∃ lm', LockManagerB.Release
           (LockManagerB.ReadLock two_waits T1 "c").1 T1 "c" = Some lm' ∧
         lock_table_ lm' !! "c" = Some [].
Proof.
  destruct (lock_release_on_free_key two_waits T1 "c" eq_refl)
    as (HA & _ & HB & _).
  split; [by rewrite HA|].
  eexists. split; [exact HB|]. simpl. apply lookup_insert_eq.
Defined.

(** ** Variant A: handing a key over *)

(** Variant A, on a key without table entry, from any state: [t1] locks it
    and is granted at once, [t2] asks for it and has to wait, [t1]
    releases it. The queue of the key is then the request of [t2] alone
    and [Status] reports [t2] as owner. Let [c] be the counter [t2] had
    when it asked (0 if it had none, or if it is [t1] itself): the counter
    of [t2] is [c] again, and [t2] is appended to the ready queue exactly
    when [c = 0], that is when it waited for nothing else. *)
Theorem exclusive_handover lm t1 t2 key :
  lock_table_ lm !! key = None →
  let r1 := LockManagerA.WriteLock lm t1 key in
  let r2 := LockManagerA.WriteLock r1.1 t2 key in
  let lm3 := LockManagerA.Release r2.1 t1 key in
  let c := default 0 (<[t1 := 0]> (txn_waits_ lm) !! t2) in
  r1.2 = true ∧ r2.2 = false ∧
  lock_table_ lm3 = <[key := [mkLockRequest EXCLUSIVE t2]]> (lock_table_ lm) ∧
  LockManagerA.Status lm3 key = (EXCLUSIVE, [t2]) ∧
  txn_waits_ lm3 !! t2 = Some c ∧
  ready_txns_ r2.1 = ready_txns_ lm ∧
  ready_txns_ lm3
  = (if decide (c = 0) then ready_txns_ lm ++ [t2] else ready_txns_ lm).
Proof.
  intros Hfree. cbv zeta.
  assert (LockManagerA.WriteLock lm t1 key
          = ({| lock_table_ :=
                  <[key := [mkLockRequest EXCLUSIVE t1]]> (lock_table_ lm);
                txn_waits_ := <[t1 := 0]> (txn_waits_ lm);
                ready_txns_ := ready_txns_ lm |}, true)) as ->.
  { unfold LockManagerA.WriteLock. by rewrite Hfree. }
  simpl.
  unfold LockManagerA.WriteLock. simpl. rewrite lookup_insert_eq. simpl.
  unfold LockManagerA.Release. simpl. rewrite lookup_insert_eq.
  rewrite decide_False by (intros H; by apply H). simpl.
  unfold waits_incr. rewrite lookup_insert_eq. simpl.
  unfold LockManagerA.Status. simpl. rewrite !lookup_insert_eq.
  rewrite !insert_insert_eq.
  set (c := default 0 (<[t1:=0]> (txn_waits_ lm) !! t2)).
  replace (c + 1 - 1) with c by lia.
  by repeat split.
Qed.

Lemma exclusive_handover_witness :
  let r1 := LockManagerA.WriteLock two_waits T4 "c" in
  let r2 := LockManagerA.WriteLock r1.1 T1 "c" in
  let lm3 := LockManagerA.Release r2.1 T4 "c" in
  ready_txns_ lm3 = ready_txns_ two_waits ++ [T1] ∧
  LockManagerA.Status lm3 "c" = (EXCLUSIVE, [T1]).
Proof.
  destruct (exclusive_handover two_waits T4 T1 "c" eq_refl)
    as (_ & _ & _ & Hst & _ & _ & Hready).
  split; [exact Hready|exact Hst].
Defined.

(** ** Variant B: what [Status] reports *)

Lemma shared_run_split q :
  ∃ pre rest,
    q = pre ++ rest ∧
    LockManagerB.shared_run q = txn_ <$> pre ∧
    Forall (λ r, mode_ r ≠ EXCLUSIVE) pre ∧
    (rest = [] ∨ ∃ r rest', rest = r :: rest' ∧ mode_ r = EXCLUSIVE).
Proof.
  induction q as [|r q (pre & rest & -> & Hrun & Hall & Hrest)].
  - exists [], []. repeat split; [constructor|by left].
  - simpl. destruct (decide (mode_ r ≠ EXCLUSIVE)) as [Hr|Hr].
    + exists (r :: pre), rest. rewrite Hrun.
      repeat split; [by constructor|done].
    + exists [], (r :: pre ++ rest). repeat split; [constructor|].
      right. exists r, (pre ++ rest). split; [done|].
      by destruct (decide (mode_ r = EXCLUSIVE)).
Qed.

(** Variant B, [Status] of a key against the key's queue. UNLOCKED is
    reported exactly when the key has no queue or an empty one, and
    exactly when no owner is written. EXCLUSIVE is reported with one
    owner, the transaction of the first request, which is EXCLUSIVE.
    SHARED is reported with the transactions of a non-empty run of
    requests at the front of the queue, none of them EXCLUSIVE, and the
    run is as long as it can be: it ends at the end of the queue or just
    before an EXCLUSIVE request. *)
Theorem StatusB_reports lm key :
  let st := LockManagerB.Status lm key in
  (st.1 = UNLOCKED ↔
     lock_table_ lm !! key = None ∨ lock_table_ lm !! key = Some []) ∧
  (st.1 = UNLOCKED ↔ st.2 = []) ∧
  (st.1 = EXCLUSIVE →
     ∃ r rest, lock_table_ lm !! key = Some (r :: rest) ∧
               mode_ r = EXCLUSIVE ∧ st.2 = [txn_ r]) ∧
  (st.1 = SHARED →
     ∃ pre rest,
       lock_table_ lm !! key = Some (pre ++ rest) ∧ pre ≠ [] ∧
       st.2 = txn_ <$> pre ∧
       Forall (λ r, mode_ r ≠ EXCLUSIVE) pre ∧
       (rest = [] ∨ ∃ r rest', rest = r :: rest' ∧ mode_ r = EXCLUSIVE)).
Proof.
  cbv zeta. unfold LockManagerB.Status.
  destruct (lock_table_ lm !! key) as [[|r q]|] eqn:Hq; simpl.
  - repeat split; try done; by right.
  - destruct (decide (mode_ r = EXCLUSIVE)) as [Hr|Hr]; simpl.
    + repeat split; try done; [by intros [|]|].
      intros _. by exists r, q.
    + rewrite decide_True by done. repeat split; try done; [by intros [|]|].
      intros _. destruct (shared_run_split q)
        as (pre & rest & -> & Hrun & Hall & Hrest).
      exists (r :: pre), rest. rewrite Hrun.
      repeat split; [done|by constructor|done].
  - repeat split; try done; by left.
Qed.

(** ** Variant B: readers drain, then the writer is woken *)

Lemma ReadLockB_eq lm txn key :
  LockManagerB.ReadLock lm txn key
  = let q := default [] (lock_table_ lm !! key) in
    ({| lock_table_ := <[key := q ++ [mkLockRequest SHARED txn]]> (lock_table_ lm);
        txn_waits_ := if LockManagerB.has_exclusive q
                      then waits_incr txn (txn_waits_ lm)
                      else <[txn := 0]> (txn_waits_ lm);
        ready_txns_ := ready_txns_ lm |},
     negb (LockManagerB.has_exclusive q)).
Proof.
  unfold LockManagerB.ReadLock.
  destruct (lock_table_ lm !! key) as [q|]; simpl; [|done].
  case_decide as Hlen.
  - by apply length_snoc_one in Hlen as ->.
  - rewrite has_exclusive_snoc_shared.
    by destruct (LockManagerB.has_exclusive q).
Qed.

Lemma WriteLockB_eq lm txn key :
  LockManagerB.WriteLock lm txn key
  = let q := default [] (lock_table_ lm !! key) in
    ({| lock_table_ := <[key := q ++ [mkLockRequest EXCLUSIVE txn]]> (lock_table_ lm);
        txn_waits_ := match q with
                      | [] => <[txn := 0]> (txn_waits_ lm)
                      | _ :: _ => waits_incr txn (txn_waits_ lm)
                      end;
        ready_txns_ := ready_txns_ lm |},
     match q with [] => true | _ :: _ => false end).
Proof.
  unfold LockManagerB.WriteLock.
  destruct (lock_table_ lm !! key) as [[|r q]|]; simpl; [done| |done].
  rewrite decide_False; [done|]. rewrite length_app. simpl. lia.
Qed.

(** Variant B, on a key without table entry, from any state, for three
    distinct transactions: [t1] and [t2] read-lock the key and are both
    granted at once, [t3] asks to write it and has to wait. When [t1]
    releases, [Status] reports the key SHARED with owner [t2] and nothing
    is appended to the ready queue. When [t2] releases, [Status] reports
    the key EXCLUSIVE with owner [t3], and [t3] is appended to the ready
    queue exactly when it had no other pending request (its counter, 0 if
    it had none, was 0 when it asked). The first release has taken the
    counter of [t2], granted long before, from 0 to -1. *)
Theorem readers_drain_then_writer lm t1 t2 t3 key :
  lock_table_ lm !! key = None →
  t1 ≠ t2 → t1 ≠ t3 → t2 ≠ t3 →
  let r1 := LockManagerB.ReadLock lm t1 key in
  let r2 := LockManagerB.ReadLock r1.1 t2 key in
  let r3 := LockManagerB.WriteLock r2.1 t3 key in
  let c := default 0 (txn_waits_ lm !! t3) in
  r1.2 = true ∧ r2.2 = true ∧ r3.2 = false ∧
  ∃ lm4 lm5,
    LockManagerB.Release r3.1 t1 key = Some lm4 ∧
    LockManagerB.Status lm4 key = (SHARED, [t2]) ∧
    ready_txns_ lm4 = ready_txns_ lm ∧
    txn_waits_ lm4 !! t2 = Some (-1) ∧
    LockManagerB.Release lm4 t2 key = Some lm5 ∧
    LockManagerB.Status lm5 key = (EXCLUSIVE, [t3]) ∧
    ready_txns_ lm5
    = (if decide (c = 0) then ready_txns_ lm ++ [t3] else ready_txns_ lm).
Proof.
  intros Hfree H12 H13 H23. cbv zeta.
  rewrite (ReadLockB_eq lm), Hfree. simpl.
  rewrite ReadLockB_eq. simpl. rewrite lookup_insert_eq. simpl.
  rewrite WriteLockB_eq. simpl. rewrite lookup_insert_eq. simpl.
  split; [done|]. split; [done|]. split; [done|].
  unfold waits_incr. rewrite !lookup_insert_ne by done.
  set (c := default 0 (txn_waits_ lm !! t3)).
  destruct (decide (c = 0)) as [Hc|Hc].
  all: unfold LockManagerB.Release at 1; simpl; rewrite lookup_insert_eq; simpl.
  all: rewrite (decide_True (P := t1 = t1)) by done.
  all: unfold LockManagerB.Status at 1; simpl; rewrite lookup_insert_eq; simpl.
  all: unfold LockManagerB.notify at 1; simpl.
  all: rewrite lookup_insert_ne, lookup_insert_eq by done; simpl.
  all: do 2 eexists; split; [reflexivity|].
  all: unfold LockManagerB.Status at 1; simpl; rewrite lookup_insert_eq; simpl.
  all: split; [done|]; split; [done|].
  all: split; [by rewrite lookup_insert_eq|].
  all: unfold LockManagerB.Release; simpl; rewrite lookup_insert_eq; simpl.
  all: rewrite (decide_True (P := t2 = t2)) by done.
  all: unfold LockManagerB.Status at 1; simpl; rewrite lookup_insert_eq; simpl.
  all: unfold LockManagerB.notify; simpl.
  all: rewrite lookup_insert_ne, lookup_insert_eq by done.
  all: replace (c + 1 - 1) with c by lia.
  - rewrite decide_True by done. simpl. split; [reflexivity|].
    unfold LockManagerB.Status. simpl. by rewrite lookup_insert_eq.
  - rewrite decide_False by done. simpl. split; [reflexivity|].
    unfold LockManagerB.Status. simpl. by rewrite lookup_insert_eq.
Qed.


Lemma readers_drain_then_writer_witness :
  let r1 := LockManagerB.ReadLock two_waits T1 "c" in
  let r2 := LockManagerB.ReadLock r1.1 T2 "c" in
  let r3 := LockManagerB.WriteLock r2.1 T3 "c" in
  ∃ lm4 lm5,
    LockManagerB.Release r3.1 T1 "c" = Some lm4 ∧
    LockManagerB.Release lm4 T2 "c" = Some lm5 ∧
    LockManagerB.Status lm5 "c" = (EXCLUSIVE, [T3]) ∧
    ready_txns_ lm5 = ready_txns_ two_waits ++ [T3].
Proof.
  destruct (readers_drain_then_writer two_waits T1 T2 T3 "c" eq_refl)
    as (_ & _ & _ & lm4 & lm5 & H4 & _ & _ & _ & H5 & Hst & Hready);
    [done..|].
  exists lm4, lm5. split; [exact H4|]. split; [exact H5|].
  split; [exact Hst|exact Hready].
Defined.

(** ** Variant A: [Release] changes one counter at most *)



(** ** Writers in the lock table *)

(** In the lock table, writers hold in arrival order. [WriteLock] of
    either variant appends the EXCLUSIVE request at the end of the key's
    queue and returns true exactly when that request is then the sole
    entry of the queue. [Release] of either variant only removes requests
    and keeps the others in their order, so the order of a queue is the
    order of arrival. In either variant the holders that [Status] reports
    are the first requests of the queue, and an EXCLUSIVE request among
    them is the very first one, holding alone. [Release] of either
    variant appends to the ready queue only holders that [Status] reports
    for the key afterwards. *)
Theorem writers_wait_their_turn lm txn key :
  let q := default [] (lock_table_ lm !! key) in
  let req := mkLockRequest EXCLUSIVE txn in
  (let res := LockManagerA.WriteLock lm txn key in
   lock_table_ res.1 = <[key := q ++ [req]]> (lock_table_ lm) ∧
   (res.2 = true ↔ lock_table_ res.1 !! key = Some [req])) ∧
  (let res := LockManagerB.WriteLock lm txn key in
   lock_table_ res.1 = <[key := q ++ [req]]> (lock_table_ lm) ∧
   (res.2 = true ↔ lock_table_ res.1 !! key = Some [req])) ∧
  (∀ q, lock_table_ lm !! key = Some q →
        writers_hold_alone (LockManagerA.Status lm key).2 q ∧
        writers_hold_alone (LockManagerB.Status lm key).2 q) ∧
  (queues_shrink lm (LockManagerA.Release lm txn key) ∧
   ∀ lm', LockManagerB.Release lm txn key = Some lm' → queues_shrink lm lm') ∧
  (∃ pushed,
     ready_txns_ (LockManagerA.Release lm txn key) = ready_txns_ lm ++ pushed ∧
     pushed ⊆ (LockManagerA.Status (LockManagerA.Release lm txn key) key).2) ∧
  (∀ lm', LockManagerB.Release lm txn key = Some lm' →
     ∃ pushed,
       ready_txns_ lm' = ready_txns_ lm ++ pushed ∧
       pushed ⊆ (LockManagerB.Status lm' key).2).
Proof.
  intros q req.
  assert (∀ q0 : list LockRequest, q0 = [] ↔ Some (q0 ++ [req]) = Some [req])
    as Hsole.
  { intros q0. split; [by intros ->|]. intros [= H]. by destruct q0 as [|? [|]]. }
  split; [|split; [|split; [|split; [|split]]]].
  - destruct (WriteLockA_table lm txn key) as (Htbl & _ & Hb).
    split; [done|]. by rewrite Htbl, lookup_insert_eq, Hb.
  - destruct (WriteLockB_table lm txn key) as (Htbl & _ & Hb).
    split; [done|]. by rewrite Htbl, lookup_insert_eq, Hb.
  - intros q0 Hq0. split; [by apply StatusA_holders|by apply StatusB_holders].
  - apply release_shrinks.
  - destruct (ReleaseA_ready lm txn key) as (pushed & Hready & _ & _ & Hone).
    exists pushed. split; [done|]. intros t Ht. by apply Hone.
  - intros lm' Hrel.
    destruct (ReleaseB_ready _ _ _ _ Hrel)
      as (q0 & pushed & _ & _ & Hready & _ & Hsub & _).
    by exists pushed.
Qed.

(** ** A writer signalled ready behind an earlier request *)

(** C8. A transaction is appended to the ready queue while its write
    request is still queued behind an earlier request on the same key.
    Variant B: T1 reads "a", T3 writes "b", T2 reads "a" (all three
    granted at once), T2 asks to write "b" and has to wait behind T3.
    [Release(T1,"a")] recomputes the holders of "a", finds T2 and takes its
    counter from 1 to 0: T2 is appended to the ready queue although the
    queue of "b" is still T3's request followed by T2's and [Status("b")]
    reports T3 as owner.
    Variant A: T2 waits for "a" behind T1, is granted "b" at once (the
    counter is overwritten with 0), waits for "c" behind T3 (counter 1);
    [Release(T3,"c")] takes the counter to 0 and appends T2 although its
    request for "a" is still behind T1's. *)
Theorem writer_signalled_ready_behind_earlier_request :
  (let lm1 := (LockManagerB.ReadLock new_manager T1 "a").1 in
   let lm2 := (LockManagerB.WriteLock lm1 T3 "b").1 in
   let lm3 := (LockManagerB.ReadLock lm2 T2 "a").1 in
   let r4 := LockManagerB.WriteLock lm3 T2 "b" in
   r4.2 = false ∧ ready_txns_ r4.1 = [] ∧
   ∃ lm5,
     LockManagerB.Release r4.1 T1 "a" = Some lm5 ∧
     ready_txns_ lm5 = [T2] ∧
     lock_table_ lm5 !! "b"
     = Some [mkLockRequest EXCLUSIVE T3; mkLockRequest EXCLUSIVE T2] ∧
     LockManagerB.Status lm5 "b" = (EXCLUSIVE, [T3])) ∧
  (let lm1 := (LockManagerA.WriteLock new_manager T1 "a").1 in
   let r2 := LockManagerA.WriteLock lm1 T2 "a" in
   let lm3 := (LockManagerA.WriteLock r2.1 T2 "b").1 in
   let lm4 := (LockManagerA.WriteLock lm3 T3 "c").1 in
   let lm5 := (LockManagerA.WriteLock lm4 T2 "c").1 in
   let lm6 := LockManagerA.Release lm5 T3 "c" in
   r2.2 = false ∧ ready_txns_ lm5 = [] ∧
   ready_txns_ lm6 = [T2] ∧
   lock_table_ lm6 !! "a"
   = Some [mkLockRequest EXCLUSIVE T1; mkLockRequest EXCLUSIVE T2] ∧
   LockManagerA.Status lm6 "a" = (EXCLUSIVE, [T1])).
Proof.
  split; cbv zeta.
  - split; [reflexivity|]. split; [reflexivity|].
    eexists. split; [reflexivity|]. by repeat split.
  - by repeat split.
Qed.

(** ** Batches: no second append without a new wait *)










